(** * dorusu-js: the wire codec, the metadata codec and the application registry

    A shallow embedding of [lib/codec.js] (message framing, the decoding
    stream, interval and metadata values) and of the route registry that
    the [RpcApp] test suite exercises, followed by the properties proved
    of them.

    Conventions of the embedding.
    - A node [Buffer] is a [list byte]; node bounds its length by
      [buffer.kMaxLength], which is [Buf.wf].
    - A JavaScript number that holds an integer is a [Z].  Doubles are exact
      on integers up to 2^53, and the encoder of intervals only divides
      integers, so there the model is the arithmetic of the integers.  The
      decoder of intervals reads numbers of any size: its [parseInt], its
      division and its product round to the nearest double ([to_double]),
      and overflow to [Infinity].
    - A JavaScript string is the list of its UTF-16 code units ([jsstring]).
    - A node-style callback [done(err, value)] and a [throw] are both a
      [result]: [Ok value] or [Throw err]. *)

From Stdlib Require Import ZArith NArith List String Ascii Bool Lia.
From Stdlib Require Import Strings.Byte.
From Stdlib Require DecimalPos.
Import ListNotations.
Local Open Scope Z_scope.

(** ** Results and errors *)

Inductive JsError : Type :=
| RangeError (msg : string)
| Error (msg : string)
| TypeError (msg : string).

Inductive result (A : Type) : Type :=
| Ok (a : A)
| Throw (e : JsError).
Arguments Ok {A} a.
Arguments Throw {A} e.

Definition bind {A B : Type} (r : result A) (k : A -> result B) : result B :=
  match r with
  | Ok a => k a
  | Throw e => Throw e
  end.

Notation "x <- r ;; k" := (bind r (fun x => k))
  (at level 61, r at next level, right associativity).

(** ** Buffers *)

Module Buf.

Definition Buffer : Type := list byte.

(** [buffer.kMaxLength] of the node releases the package supports
    ([engines: node >= 4.0.0]): 0x7fffffff. *)
Definition kMaxLength : Z := 2147483647.

Definition len (b : Buffer) : Z := Z.of_nat (List.length b).

(** What node lets a [Buffer] be: no longer than [kMaxLength]. *)
Definition wf (b : Buffer) : Prop := len b <= kMaxLength.

Definition byte_to_Z (b : byte) : Z := Z.of_N (Byte.to_N b).

(** The low eight bits of [z], as [Buffer] stores a written number. *)
Definition byte_of_Z (z : Z) : byte :=
  match Byte.of_N (Z.to_N (z mod 256)) with
  | Some b => b
  | None => x00
  end.

(** [new Buffer(n)]: [n] bytes.  Node leaves the contents unspecified; the
    one use in [getBody] overwrites every byte (see [header_any_fill]). *)
Definition alloc (n : nat) : Buffer := repeat x00 n.

(** [buf[i] = b] for an index inside the buffer; outside, the store is
    dropped, as node does for a typed array. *)
Fixpoint set (buf : Buffer) (i : nat) (b : byte) : Buffer :=
  match buf, i with
  | [], _ => []
  | _ :: tl, O => b :: tl
  | hd :: tl, S j => hd :: set tl j b
  end.

(** [buf.writeUInt8(value, offset, noAssert)] with [noAssert] truthy. *)
Definition writeUInt8 (buf : Buffer) (value : Z) (offset : nat) : Buffer :=
  set buf offset (byte_of_Z value).

(** [buf.writeUInt32BE(value, offset, noAssert)] with [noAssert] truthy:
    no range check, the value is stored modulo 2^32, most significant byte
    first. *)
Definition writeUInt32BE (buf : Buffer) (value : Z) (offset : nat) : Buffer :=
  let b1 := set buf offset (byte_of_Z (Z.shiftr value 24)) in
  let b2 := set b1 (offset + 1) (byte_of_Z (Z.shiftr value 16)) in
  let b3 := set b2 (offset + 2) (byte_of_Z (Z.shiftr value 8)) in
  set b3 (offset + 3) (byte_of_Z value).

(** [buf.readUInt8(offset)]; every call site checks the length first, so
    the default is never read. *)
Definition readUInt8 (buf : Buffer) (offset : nat) : Z :=
  byte_to_Z (nth offset buf x00).

(** [buf.readUInt32BE(offset, noAssert)]. *)
Definition readUInt32BE (buf : Buffer) (offset : nat) : Z :=
  readUInt8 buf offset * 16777216
  + (Z.lor (Z.shiftl (readUInt8 buf (offset + 1)) 16)
       (Z.lor (Z.shiftl (readUInt8 buf (offset + 2)) 8)
          (readUInt8 buf (offset + 3)))).

(** [buf.slice(start)] and [buf.slice(start, end)] for indices that are
    not negative; both clamp at the end of the buffer. *)
Definition slice_from (buf : Buffer) (start : Z) : Buffer :=
  skipn (Z.to_nat start) buf.

Definition slice (buf : Buffer) (start stop : Z) : Buffer :=
  firstn (Z.to_nat stop - Z.to_nat start) (skipn (Z.to_nat start) buf).

(** [Buffer.concat(list)]. *)
Definition concat (bufs : list Buffer) : Buffer := List.concat bufs.

End Buf.

Import Buf.

(** ** Messages and the codec options *)

(** What a codec handles: a [Buffer], or an application object, whose
    type [Obj] the codec never looks into. *)
Inductive jsval (Obj : Type) : Type :=
| VBuffer (b : Buffer)
| VObject (o : Obj).
Arguments VBuffer {Obj} b.
Arguments VObject {Obj} o.

(** [opts.marshal] "converts an object into a Buffer", [opts.unmarshal]
    "converts a decoded buffer into an object"; either may be absent and
    either may throw. *)
Record Opts (Obj : Type) : Type := mkOpts {
  marshal : option (jsval Obj -> result Buffer);
  unmarshal : option (Buffer -> result (jsval Obj))
}.
Arguments mkOpts {Obj} marshal unmarshal.
Arguments marshal {Obj} o.
Arguments unmarshal {Obj} o.

(** [opts || {}] when no option is given. *)
Definition noOpts {Obj : Type} : Opts Obj := mkOpts None None.

Definition MINIMUM_ENCODED_LENGTH : Z := 5.
Definition LENGTH_INDEX : nat := 1.
Definition COMPRESSION_INDEX : nat := 0.

(** ** MsgHeaderStream *)

Module MsgHeaderStream.

(** The fields the stream keeps: the chunks written so far and their
    total size in bytes. *)
Record t : Type := mk {
  body : list Buffer;
  size : Z
}.

(** The constructor: an empty body, [this.size = 0]. *)
Definition new : t := mk [] 0.

(** [_write(chunk, enc, next)]. *)
Definition _write (this : t) (chunk : Buffer) : t :=
  mk (body this ++ [chunk]) (size this + len chunk).

(** The header block of [getBody], written into an arbitrary five-byte
    buffer [buf]. *)
Definition header_in (buf : Buffer) (this : t) : Buffer :=
  writeUInt32BE (writeUInt8 buf 0 0) (size this) 1.

(** [getBody()]: the header, then every part.  Each part is a [Buffer]
    (the source stream is in byte mode), so only the first branch of the
    loop over [parts] is taken. *)
Definition getBody (this : t) : Buffer :=
  let buf := header_in (alloc 5) this in
  let parts := buf :: body this in
  Buf.concat parts.

End MsgHeaderStream.

(** ** encodeMessage and decodeMessage *)

(** The chunks a byte-mode [Readable] hands to its pipe after
    [s.push(b); s.push(null)]: the buffer itself, or nothing when it is
    empty (an empty chunk is not queued). *)
Definition readable_chunks (b : Buffer) : list Buffer :=
  match b with
  | [] => []
  | _ :: _ => [b]
  end.

(** [s.pipe(dest)] followed by the ['finish'] callback of the concat
    stream, which passes [getBody()] to [done]. *)
Definition pipe_to_header (b : Buffer) : Buffer :=
  MsgHeaderStream.getBody
    (fold_left MsgHeaderStream._write (readable_chunks b) MsgHeaderStream.new).

(** [encodeMessage(message, opts, done)].  Without [opts.marshal] the
    message is pushed as it is; a byte-mode [Readable] refuses a chunk
    that is not a [Buffer]. *)
Definition encodeMessage {Obj : Type} (message : jsval Obj) (opts : Opts Obj)
  : result Buffer :=
  match marshal opts with
  | Some f =>
      match f message with
      | Ok b => Ok (pipe_to_header b)
      | Throw err => Throw err
      end
  | None =>
      match message with
      | VBuffer b => Ok (pipe_to_header b)
      | VObject _ => Throw (TypeError "Invalid non-string/buffer chunk")
      end
  end.

(** [decodeMessage(encoded, opts, done)]. *)
Definition decodeMessage {Obj : Type} (encoded : Buffer) (opts : Opts Obj)
  : result (jsval Obj) :=
  let buf := encoded in
  if len buf <? MINIMUM_ENCODED_LENGTH then
    Throw (RangeError "Encoded message was smaller than 5")
  else
    let compression := readUInt8 buf COMPRESSION_INDEX in
    let length := readUInt32BE buf LENGTH_INDEX in
    let payload := slice_from buf MINIMUM_ENCODED_LENGTH in
    if (compression =? 0) && negb (len payload =? length) then
      Throw (Error "Encoded message length is wrong")
    else
      match unmarshal opts with
      | Some f => f payload
      | None => Ok (VBuffer payload)
      end.

(** ** DecodingStream *)

Module DecodingStream.

Section Stream.
Context {Obj : Type}.

(** The fields of the stream: [_buffer] ([null] at first) and
    [_unmarshal]. *)
Record t : Type := mk {
  _buffer : option Buffer;
  _unmarshal : option (Buffer -> result (jsval Obj))
}.

(** The constructor. *)
Definition new (opts : Opts Obj) : t := mk None (unmarshal opts).

(** [_transform(chunk, unused_encoding, next)]: the stream afterwards and
    what was pushed downstream, or the exception of the unmarshaller. *)
Definition _transform (this : t) (chunk : Buffer)
  : result (t * list (jsval Obj)) :=
  let buffer :=
    match _buffer this with
    | Some b => Buf.concat [b; chunk]
    | None => chunk
    end in
  if len buffer <? MINIMUM_ENCODED_LENGTH then
    Ok (mk (Some buffer) (_unmarshal this), [])
  else
    let length := readUInt32BE buffer LENGTH_INDEX in
    let payloadLength := length + MINIMUM_ENCODED_LENGTH in
    if len buffer <? payloadLength then
      Ok (mk (Some buffer) (_unmarshal this), [])
    else
      let msg := slice buffer MINIMUM_ENCODED_LENGTH payloadLength in
      pushed <- match _unmarshal this with
                | Some f => f msg
                | None => Ok (VBuffer msg)
                end ;;
      Ok (mk (Some (slice_from buffer payloadLength)) (_unmarshal this),
          [pushed]).

(** [_flush(done)]: what is pushed before [done()], or the error emitted
    instead of calling [done].  [decodeMessage] is called with [null]
    options, so what it hands over is always the payload buffer; the
    [VObject] case only completes the match. *)
Definition _flush (this : t) : result (list (jsval Obj)) :=
  match _buffer this with
  | None => Ok []
  | Some buffer =>
      if len buffer =? 0 then Ok []
      else
        buf <- decodeMessage buffer noOpts ;;
        match _unmarshal this with
        | Some f =>
            match buf with
            | VBuffer b => pushed <- f b ;; Ok [pushed]
            | VObject _ => Ok [buf]
            end
        | None => Ok [buf]
        end
  end.

(** The stream machinery: every written chunk goes through [_transform]
    in order.  The result is what was emitted and the stream at the end,
    or what was emitted before an error and the error. *)
Fixpoint write_all (this : t) (chunks : list Buffer)
  : list (jsval Obj) * result t :=
  match chunks with
  | [] => ([], Ok this)
  | chunk :: rest =>
      match _transform this chunk with
      | Throw err => ([], Throw err)
      | Ok (this', out) =>
          let (outs, r) := write_all this' rest in
          (out ++ outs, r)
      end
  end.

(** A whole run: the chunks are written, the input ends, [_flush] runs.
    The result is the sequence emitted and the error that ended the
    stream, if any. *)
Definition run (opts : Opts Obj) (chunks : list Buffer)
  : list (jsval Obj) * option JsError :=
  match write_all (new opts) chunks with
  | (outs, Throw err) => (outs, Some err)
  | (outs, Ok this) =>
      match _flush this with
      | Ok last => (outs ++ last, None)
      | Throw err => (outs, Some err)
      end
  end.

End Stream.

Arguments t : clear implicits.

End DecodingStream.

(** ** JavaScript strings and numbers *)

(** A string is the sequence of its UTF-16 code units. *)
Definition jsstring : Type := list N.

(** A string literal of the source (ASCII only). *)
Fixpoint str (s : string) : jsstring :=
  match s with
  | EmptyString => []
  | String c rest => N_of_ascii c :: str rest
  end.

(** A number: a finite double that holds the integer [z], [Infinity], or
    [NaN] (what arithmetic on [undefined] gives). *)
Inductive jsnum : Type :=
| Num (z : Z)
| Infinity
| NaN.

Definition digit_code (d : N) : N := 48 + d.

Fixpoint uint_codes (u : Decimal.uint) : jsstring :=
  match u with
  | Decimal.Nil => []
  | Decimal.D0 r => digit_code 0 :: uint_codes r
  | Decimal.D1 r => digit_code 1 :: uint_codes r
  | Decimal.D2 r => digit_code 2 :: uint_codes r
  | Decimal.D3 r => digit_code 3 :: uint_codes r
  | Decimal.D4 r => digit_code 4 :: uint_codes r
  | Decimal.D5 r => digit_code 5 :: uint_codes r
  | Decimal.D6 r => digit_code 6 :: uint_codes r
  | Decimal.D7 r => digit_code 7 :: uint_codes r
  | Decimal.D8 r => digit_code 8 :: uint_codes r
  | Decimal.D9 r => digit_code 9 :: uint_codes r
  end.

(** ['' + amt] for an integer [amt]: its decimal digits, with a minus
    sign when negative. *)
Definition number_toString (z : Z) : jsstring :=
  match Z.to_int z with
  | Decimal.Pos u => uint_codes u
  | Decimal.Neg u => 45%N :: uint_codes u
  end.

(** [\d] of a regular expression: the ASCII digits. *)
Definition is_digit (c : N) : bool := ((48 <=? c) && (c <=? 57))%N.

(** The integer that a string of digits spells, most significant digit
    first: the mathematical value [parseInt(s, 10)] starts from. *)
Definition parseInt_digits (s : jsstring) : Z :=
  fold_left (fun acc c => 10 * acc + (Z.of_N c - 48)) s 0.

(** [Number.MAX_SAFE_INTEGER]: up to it every integer is a double. *)
Definition MAX_SAFE_INTEGER : Z := 2 ^ 53 - 1.

(** The double nearest to an integer [z] that is not negative: [z]
    itself below 2^53; above, the 53 leading bits of [z], rounded to
    nearest with ties to the even one, and [Infinity] from 2^1024 on. *)
Definition to_double (z : Z) : jsnum :=
  if z <? 2 ^ 53 then Num z
  else
    let e := Z.log2 z - 52 in
    let q := z / 2 ^ e in
    let r := z mod 2 ^ e in
    let q' :=
      if 2 * r <? 2 ^ e then q
      else if 2 ^ e <? 2 * r then q + 1
      else if Z.even q then q else q + 1 in
    if 2 ^ 1024 <=? q' * 2 ^ e then Infinity else Num (q' * 2 ^ e).

(** [parseInt(s, 10)] on a string of digits: the double nearest to the
    integer the digits spell. *)
Definition parseInt (s : jsstring) : jsnum := to_double (parseInt_digits s).

(** [a * b] on numbers that are not negative: the double nearest to the
    product. *)
Definition number_mul (a b : jsnum) : jsnum :=
  match a, b with
  | NaN, _ | _, NaN => NaN
  | Num x, Num y => to_double (x * y)
  | Infinity, Num y | Num y, Infinity => if y =? 0 then NaN else Infinity
  | Infinity, Infinity => Infinity
  end.

(** The binary exponent of [p / q], the integer part of its logarithm in
    base 2, for [p] and [q] positive. *)
Definition quotient_exponent (p q : Z) : Z :=
  let l := Z.log2 p - Z.log2 q in
  if (if 0 <=? l then q * 2 ^ l <=? p else q <=? p * 2 ^ (- l))
  then l else l - 1.

(** [Math.floor(p / q)] on integers, [p] not negative and [q] positive:
    the quotient is rounded to the nearest double, a multiple [m * 2^e]
    with [m] of 53 bits, ties going to the even [m], and then floored. *)
Definition floor_div_double (p q : Z) : Z :=
  if p =? 0 then 0
  else
    let e := quotient_exponent p q - 52 in
    let num := if 0 <=? e then p else p * 2 ^ (- e) in
    let den := if 0 <=? e then q * 2 ^ e else q in
    let m := num / den in
    let r := num mod den in
    let m' :=
      if 2 * r <? den then m
      else if den <? 2 * r then m + 1
      else if Z.even m then m else m + 1 in
    if 0 <=? e then m' * 2 ^ e else m' / 2 ^ (- e).

(** [Math.floor(amt / q)] on a number that is not negative. *)
Definition Math_floor_div (amt : jsnum) (q : Z) : jsnum :=
  match amt with
  | Num p => Num (floor_div_double p q)
  | Infinity => Infinity
  | NaN => NaN
  end.

(** ** Intervals *)

(** [microsBySuffix], in the insertion order of the object literal, which
    is the order in which [_.forEach] visits it. *)
Definition microsBySuffix : list (jsstring * Z) :=
  [ (str "H", 3600 * 10 ^ 6);
    (str "M", 60 * 10 ^ 6);
    (str "S", 10 ^ 6);
    (str "m", 10 ^ 3);
    (str "u", 1) ].

Definition maxInterval : Z := 10 ^ 8 - 1.

Definition jsstring_eqb (a b : jsstring) : bool :=
  if list_eq_dec N.eq_dec a b then true else false.

(** [obj[key]]: the property, or [undefined]. *)
Fixpoint get_property {V : Type} (obj : list (jsstring * V)) (key : jsstring)
  : option V :=
  match obj with
  | [] => None
  | (k, v) :: rest => if jsstring_eqb k key then Some v else get_property rest key
  end.

(** [_.forEach(obj, f)]: [f(value, key)] on each property in order, until
    [f] returns [false].  The callback's effect on the variables it closes
    over is the state [St]. *)
Fixpoint forEach {V St : Type} (obj : list (jsstring * V))
  (f : V -> jsstring -> St -> St * bool) (st : St) : St :=
  match obj with
  | [] => st
  | (k, v) :: rest =>
      let (st', continue) := f v k st in
      if continue then forEach rest f st' else st'
  end.

(** One turn of the [switch] in the body of the [while] loop of
    [microsToInterval]; a suffix without a [case] leaves both variables
    as they are. *)
Definition step_up (amt : Z) (s : jsstring) : Z * jsstring :=
  if jsstring_eqb s (str "u") then (amt / 1000, str "m")
  else if jsstring_eqb s (str "m") then (amt / 1000, str "S")
  else if jsstring_eqb s (str "S") then (amt / 60, str "M")
  else if jsstring_eqb s (str "M") then (amt / 60, str "H")
  else (amt, s).

(** [while (amt > maxInterval && s !== 'H') { switch ... }], with a bound
    on the number of turns; four turns lead from ['u'] to ['H'], and
    [while_loop_fuel] shows that the bound used below is never reached. *)
Fixpoint while_loop (fuel : nat) (amt : Z) (s : jsstring) : Z * jsstring :=
  match fuel with
  | O => (amt, s)
  | S fuel' =>
      if (maxInterval <? amt) && negb (jsstring_eqb s (str "H")) then
        let (amt', s') := step_up amt s in
        while_loop fuel' amt' s'
      else (amt, s)
  end.

(** The callback given to [_.forEach]; the state is [res]. *)
Definition try_suffix (micros : Z) (denom : Z) (s : jsstring)
  (res : option jsstring) : option jsstring * bool :=
  if Z.rem micros denom =? 0 then
    let amt := Z.quot micros denom in
    let (amt', s') := while_loop 8 amt s in
    if amt' <=? maxInterval then
      (Some (number_toString amt' ++ s'), false)
    else (res, true)
  else (res, true).

(** [microsToInterval(micros)]. *)
Definition microsToInterval (micros : Z) : result jsstring :=
  let res := forEach microsBySuffix (try_suffix micros) None in
  match res with
  | Some r => Ok r
  | None => Throw (RangeError "interval encode failed")
  end.

(** The suffixes of [intervalRx]: [H|M|S|m|u|n]. *)
Definition is_suffix (c : N) : bool :=
  existsb (N.eqb c) (str "HMSmun").

(** The longest prefix of digits and what follows it: how the greedy
    [\d+] of [intervalRx] consumes its input. *)
Fixpoint span_digits (s : jsstring) : jsstring * jsstring :=
  match s with
  | c :: rest =>
      if is_digit c then
        let (ds, tl) := span_digits rest in (c :: ds, tl)
      else ([], s)
  | [] => ([], [])
  end.

(** [interval.match(intervalRx)] with
    [intervalRx = /^(\d+)(H|M|S|m|u|n)$/]: the two groups, or [null].
    No suffix is a digit, so giving back digits never helps and the
    greedy match is the only candidate. *)
Definition match_intervalRx (interval : jsstring)
  : option (jsstring * jsstring) :=
  match span_digits interval with
  | (d :: ds, [c]) => if is_suffix c then Some (d :: ds, [c]) else None
  | _ => None
  end.

(** [intervalToMicros(interval)]. *)
Definition intervalToMicros (interval : jsstring) : result jsnum :=
  match match_intervalRx interval with
  | None => Throw (RangeError "interval decode failed")
  | Some (digits, suffix0) =>
      let amt0 := parseInt digits in
      let (suffix, amt) :=
        if jsstring_eqb suffix0 (str "n") then
          (str "u", Math_floor_div amt0 1000)
        else (suffix0, amt0) in
      match get_property microsBySuffix suffix with
      | Some w => Ok (number_mul (Num w) amt)
      | None => Ok NaN
      end
  end.

(** [isInterval(interval)]. *)
Definition isInterval (interval : jsstring) : bool :=
  match match_intervalRx interval with
  | Some _ => true
  | None => false
  end.

(** ** Metadata values *)

(** [isAscii.test(value)] with [isAscii = /^[\x00-\x7F]+$/]: one code
    unit or more, each at most 0x7F. *)
Definition isAscii_test (value : jsstring) : bool :=
  match value with
  | [] => false
  | _ :: _ => forallb (fun c => (c <=? 127)%N) value
  end.

Definition byte_of_N (n : N) : byte := byte_of_Z (Z.of_N n).

Definition is_lead (c : N) : bool := ((55296 <=? c) && (c <=? 56319))%N.
Definition is_trail (c : N) : bool := ((56320 <=? c) && (c <=? 57343))%N.

(** The UTF-8 bytes of a code point. *)
Definition utf8_codepoint (cp : N) : Buffer :=
  (if cp <? 128 then [byte_of_N cp]
   else if cp <? 2048 then
     [byte_of_N (192 + cp / 64); byte_of_N (128 + cp mod 64)]
   else if cp <? 65536 then
     [byte_of_N (224 + cp / 4096); byte_of_N (128 + (cp / 64) mod 64);
      byte_of_N (128 + cp mod 64)]
   else
     [byte_of_N (240 + cp / 262144); byte_of_N (128 + (cp / 4096) mod 64);
      byte_of_N (128 + (cp / 64) mod 64); byte_of_N (128 + cp mod 64)])%N.

(** [new Buffer(string)]: the UTF-8 encoding of the string; a surrogate
    pair is one code point, a lone surrogate becomes U+FFFD. *)
Fixpoint Buffer_from_string (s : jsstring) : Buffer :=
  match s with
  | [] => []
  | c :: rest =>
      if is_lead c then
        match rest with
        | d :: rest' =>
            if is_trail d then
              utf8_codepoint (65536 + (c - 55296) * 1024 + (d - 56320))%N
                ++ Buffer_from_string rest'
            else utf8_codepoint 65533 ++ Buffer_from_string rest
        | [] => utf8_codepoint 65533
        end
      else if is_trail c then utf8_codepoint 65533 ++ Buffer_from_string rest
      else utf8_codepoint c ++ Buffer_from_string rest
  end.

Definition base64_alphabet : jsstring :=
  str "ABCDEFGHIJKLMNOPQRSTUVWXYZabcdefghijklmnopqrstuvwxyz0123456789+/".

Definition base64_char (i : Z) : N :=
  nth (Z.to_nat (i mod 64)) base64_alphabet 0%N.

(** [buf.toString('base64')]: three bytes give four characters, and a
    last group of one or two bytes is padded with [=]. *)
Fixpoint toString_base64 (buf : Buffer) : jsstring :=
  match buf with
  | [] => []
  | [a] =>
      let x := byte_to_Z a in
      [base64_char (x / 4); base64_char (x mod 4 * 16); 61%N; 61%N]
  | [a; b] =>
      let x := byte_to_Z a in
      let y := byte_to_Z b in
      [base64_char (x / 4); base64_char (x mod 4 * 16 + y / 16);
       base64_char (y mod 16 * 4); 61%N]
  | a :: b :: c :: rest =>
      let x := byte_to_Z a in
      let y := byte_to_Z b in
      let z := byte_to_Z c in
      base64_char (x / 4) :: base64_char (x mod 4 * 16 + y / 16)
        :: base64_char (y mod 16 * 4 + z / 64) :: base64_char (z mod 64)
        :: toString_base64 rest
  end.

(** A single metadata value: a string or a [Buffer]. *)
Inductive scalar : Type :=
| SString (s : jsstring)
| SBuffer (b : Buffer).

(** A metadata value: a single one, or an [Array] of them. *)
Inductive mdvalue : Type :=
| VScalar (x : scalar)
| VArray (xs : list scalar).

(** [new Buffer(v)] for a string (its UTF-8 bytes) or a [Buffer] (a
    copy). *)
Definition Buffer_from (v : scalar) : Buffer :=
  match v with
  | SString s => Buffer_from_string s
  | SBuffer b => b
  end.

(** [v instanceof Buffer || !isAscii.test(v)]. *)
Definition is_binary (v : scalar) : bool :=
  match v with
  | SBuffer _ => true
  | SString s => negb (isAscii_test s)
  end.

(** [removeBinValues(key, value)]: the array [[key', value']] as a pair. *)
Definition removeBinValues (key : jsstring) (value : mdvalue)
  : jsstring * mdvalue :=
  match value with
  | VArray xs =>
      let needsb64 := fold_left (fun acc v => acc || is_binary v) xs false in
      if needsb64 then
        let tob64 :=
          map (fun v => SString (toString_base64 (Buffer_from v))) xs in
        (key ++ str "-bin", VArray tob64)
      else (key, value)
  | VScalar (SBuffer b) =>
      (key ++ str "-bin", VScalar (SString (toString_base64 b)))
  | VScalar (SString s) =>
      if negb (isAscii_test s) then
        (key ++ str "-bin",
         VScalar (SString (toString_base64 (Buffer_from_string s))))
      else (key, value)
  end.

(** ** The application registry

    [lib/app.js] is exercised by the [RpcApp] test suite only; the registry
    below is written from the specification of the registry (its data
    model and section 4.4). *)

Module App.

Section Registry.
Context {Obj Handler : Type}.

(** Modelled from the spec: the method descriptor of [lib/app.js],
    [{ name, marshal?, unmarshal? }]; a method with neither callback is
    legal. *)
Record MethodDescriptor : Type := Method {
  method_name : string;
  method_marshal : option (jsval Obj -> result Buffer);
  method_unmarshal : option (Buffer -> result (jsval Obj))
}.

(** Modelled from the spec: the service descriptor of [lib/app.js],
    a name and an ordered sequence of methods. *)
Record ServiceDescriptor : Type := mkService {
  service_name : string;
  service_methods : list MethodDescriptor
}.

(** Modelled from the spec: membership of a name in a sequence of names,
    used by the checks of [lib/app.js]. *)
Definition mem (x : string) (l : list string) : bool :=
  existsb (String.eqb x) l.

(** Modelled from the spec: whether a sequence of names of [lib/app.js]
    has no name twice. *)
Fixpoint distinct (l : list string) : bool :=
  match l with
  | [] => true
  | x :: rest => negb (mem x rest) && distinct rest
  end.

(** Modelled from the spec: [Service(name, methods)] of [lib/app.js];
    duplicate method names within a service are rejected. *)
Definition Service (name : string) (methods : list MethodDescriptor)
  : result ServiceDescriptor :=
  if distinct (map method_name methods) then Ok (mkService name methods)
  else Throw (Error "duplicate method name").

(** Modelled from the spec: the route of a method in [lib/app.js], the
    string ["/" + serviceName + "/" + methodName]. *)
Definition route (serviceName methodName : string) : string :=
  String.append "/"
    (String.append serviceName (String.append "/" methodName)).

(** Modelled from the spec: the registry entry of a route in
    [lib/app.js]: the marshal and unmarshal references (possibly absent)
    and the handler (absent until registered). *)
Record Entry : Type := mkEntry {
  entry_marshal : option (jsval Obj -> result Buffer);
  entry_unmarshal : option (Buffer -> result (jsval Obj));
  entry_handler : option Handler
}.

(** Modelled from the spec: the state of an [RpcApp] of [lib/app.js]:
    the names of the services added and the entries of their routes, both
    in insertion order. *)
Record t : Type := mkApp {
  services : list string;
  routes : list (string * Entry)
}.

(** Modelled from the spec: the registry of [lib/app.js] before any
    service is added. *)
Definition empty : t := mkApp [] [].

(** Modelled from the spec: the entries [addService] of [lib/app.js]
    creates for a service, one per method in declaration order, each with
    an absent handler and the callbacks of the method. *)
Definition service_entries (svc : ServiceDescriptor)
  : list (string * Entry) :=
  map (fun m => (route (service_name svc) (method_name m),
                 mkEntry (method_marshal m) (method_unmarshal m) None))
      (service_methods svc).

(** Modelled from the spec: [addService(service)] of [lib/app.js]; it
    fails when the name is already present, and colliding routes are an
    error. *)
Definition addService (app : t) (svc : ServiceDescriptor) : result t :=
  if mem (service_name svc) (services app) then
    Throw (Error "service already added")
  else
    let added := service_entries svc in
    if existsb (fun r => mem r (map fst (routes app))) (map fst added) then
      Throw (Error "route already present")
    else
      Ok (mkApp (services app ++ [service_name svc]) (routes app ++ added)).

(** Modelled from the spec: [addService] of [lib/app.js] on each service
    of a sequence, in order. *)
Fixpoint addServices (app : t) (svcs : list ServiceDescriptor) : result t :=
  match svcs with
  | [] => Ok app
  | svc :: rest => app' <- addService app svc ;; addServices app' rest
  end.

(** Modelled from the spec: the constructor [RpcApp(...services)] of
    [lib/app.js], which pre-loads the services passed to it. *)
Definition RpcApp (svcs : list ServiceDescriptor) : result t :=
  addServices empty svcs.

(** Modelled from the spec: the lookup of a route among the entries of
    [lib/app.js]. *)
Fixpoint find_entry (rs : list (string * Entry)) (r : string)
  : option Entry :=
  match rs with
  | [] => None
  | (k, e) :: rest => if String.eqb k r then Some e else find_entry rest r
  end.

(** Modelled from the spec: the update [register] of [lib/app.js] makes
    to the entries; it fails if the route is unknown or already has a
    handler. *)
Fixpoint set_handler (rs : list (string * Entry)) (r : string) (h : Handler)
  : result (list (string * Entry)) :=
  match rs with
  | [] => Throw (Error "unknown route")
  | (k, e) :: rest =>
      if String.eqb k r then
        match entry_handler e with
        | Some _ => Throw (Error "route already has a handler")
        | None =>
            Ok ((k, mkEntry (entry_marshal e) (entry_unmarshal e) (Some h))
                  :: rest)
        end
      else
        rest' <- set_handler rest r h ;; Ok ((k, e) :: rest')
  end.

(** Modelled from the spec: [register(route, handler)] of
    [lib/app.js]. *)
Definition register (app : t) (r : string) (h : Handler) : result t :=
  rs <- set_handler (routes app) r h ;; Ok (mkApp (services app) rs).

(** Modelled from the spec: a sequence of [register] calls on the
    registry of [lib/app.js], in order. *)
Fixpoint registerAll (app : t) (regs : list (string * Handler)) : result t :=
  match regs with
  | [] => Ok app
  | (r, h) :: rest => app' <- register app r h ;; registerAll app' rest
  end.

(** Modelled from the spec: [hasRoute(route)] of [lib/app.js], true iff
    a handler is registered for the route. *)
Definition hasRoute (app : t) (r : string) : bool :=
  match find_entry (routes app) r with
  | Some e => match entry_handler e with Some _ => true | None => false end
  | None => false
  end.

(** Modelled from the spec: whether the entry of a route of
    [lib/app.js] has no handler yet. *)
Definition no_handler (re : string * Entry) : bool :=
  match entry_handler (snd re) with
  | Some _ => false
  | None => true
  end.

(** Modelled from the spec: [missingRoutes()] of [lib/app.js], every
    known route with no handler, in service-insertion order followed by
    method-insertion order. *)
Definition missingRoutes (app : t) : list string :=
  map fst (filter no_handler (routes app)).

(** Modelled from the spec: [marshaller(route)] of [lib/app.js]; absent
    if the route is unknown or the method declared no marshaller. *)
Definition marshaller (app : t) (r : string)
  : option (jsval Obj -> result Buffer) :=
  match find_entry (routes app) r with
  | Some e => entry_marshal e
  | None => None
  end.

(** Modelled from the spec: [unmarshaller(route)] of [lib/app.js], the
    dual of [marshaller]. *)
Definition unmarshaller (app : t) (r : string)
  : option (Buffer -> result (jsval Obj)) :=
  match find_entry (routes app) r with
  | Some e => entry_unmarshal e
  | None => None
  end.

(** Modelled from the spec: [isComplete()] of [lib/app.js], true iff
    [missingRoutes()] is empty. *)
Definition isComplete (app : t) : bool :=
  match missingRoutes app with
  | [] => true
  | _ :: _ => false
  end.

(** Modelled from the spec: the routes of a sequence of services of
    [lib/app.js] in declared order, service by service and method by
    method. *)
Definition declared_routes (svcs : list ServiceDescriptor) : list string :=
  flat_map (fun svc => map fst (service_entries svc)) svcs.

(** The services of the [RpcApp] test suite: [test], whose method
    [do_reverse] has both callbacks, and [basic], whose method [noop] has
    none. *)
Definition testSvc (reverser : jsval Obj -> result Buffer)
  (irreverser : Buffer -> result (jsval Obj)) : ServiceDescriptor :=
  mkService "test" [Method "do_reverse" (Some reverser) (Some irreverser)].

Definition basicSvc : ServiceDescriptor :=
  mkService "basic" [Method "noop" None None].

End Registry.

Arguments MethodDescriptor : clear implicits.
Arguments ServiceDescriptor : clear implicits.
Arguments Entry : clear implicits.
Arguments t : clear implicits.
Arguments basicSvc {Obj}.

End App.

(** ** Notions the properties are stated with *)

(** The unsigned 32-bit number that four bytes spell, most significant
    byte first. *)
Definition be32 (b1 b2 b3 b4 : byte) : Z :=
  ((byte_to_Z b1 * 256 + byte_to_Z b2) * 256 + byte_to_Z b3) * 256
  + byte_to_Z b4.

(** What [decodeMessage] and the decoding stream do with a payload once
    it is cut out of its frame. *)
Definition deliver {Obj : Type} (opts : Opts Obj) (payload : Buffer)
  : result (jsval Obj) :=
  match unmarshal opts with
  | Some f => f payload
  | None => Ok (VBuffer payload)
  end.

(** The interval grammar [<digits><suffix>]: one digit or more, then one
    of [H], [M], [S], [m], [u], [n], and nothing else. *)
Definition interval_grammar (s digits : jsstring) (suffix : N) : Prop :=
  s = digits ++ [suffix] /\ digits <> []
  /\ forallb is_digit digits = true /\ is_suffix suffix = true.

(** The weight of a suffix in microseconds: H = 3.6e9, M = 6e7, S = 1e6,
    m = 1e3, u = 1. *)
Definition weight (suffix : N) : Z :=
  if (suffix =? 72)%N then 3600000000
  else if (suffix =? 77)%N then 60000000
  else if (suffix =? 83)%N then 1000000
  else if (suffix =? 109)%N then 1000
  else 1.

(** The value the grammar gives to [<digits><suffix>] in the integers:
    the integer times the weight of the suffix, where [n] first divides
    the integer by 1000, flooring, and then counts as microseconds. *)
Definition interval_value (digits : jsstring) (suffix : N) : Z :=
  if (suffix =? 110)%N then parseInt_digits digits / 1000
  else weight suffix * parseInt_digits digits.

(** The same value as JavaScript numbers compute it: the parsed integer
    times the weight of the suffix, where [n] first divides the integer
    by 1000, flooring, and then counts as microseconds (suffix [u]). *)
Definition interval_number (digits : jsstring) (suffix : N) : jsnum :=
  if (suffix =? 110)%N then
    number_mul (Num (weight 117)) (Math_floor_div (parseInt digits) 1000)
  else number_mul (Num (weight suffix)) (parseInt digits).

(** The encoding rule in the words of the specification.  The units from
    the coarsest to the finest, each with its denominator and the factor
    that leads from it to the next coarser unit. *)
Inductive time_unit : Type := Hours | Minutes | Seconds | Millis | Micros.

Definition unit_order : list time_unit :=
  [Hours; Minutes; Seconds; Millis; Micros].

Definition unit_suffix (u : time_unit) : jsstring :=
  match u with
  | Hours => str "H"
  | Minutes => str "M"
  | Seconds => str "S"
  | Millis => str "m"
  | Micros => str "u"
  end.

Definition unit_micros (u : time_unit) : Z :=
  match u with
  | Hours => 3600000000
  | Minutes => 60000000
  | Seconds => 1000000
  | Millis => 1000
  | Micros => 1
  end.

(** The next coarser unit and the factor to it; none above hours. *)
Definition coarser (u : time_unit) : option (Z * time_unit) :=
  match u with
  | Hours => None
  | Minutes => Some (60, Hours)
  | Seconds => Some (60, Minutes)
  | Millis => Some (1000, Seconds)
  | Micros => Some (1000, Millis)
  end.

(** Step up, flooring, while the amount exceeds 99,999,999 and a coarser
    unit exists. *)
Fixpoint fit (steps : nat) (amt : Z) (u : time_unit) : Z * time_unit :=
  if amt <=? 99999999 then (amt, u)
  else
    match steps, coarser u with
    | S steps', Some (factor, u') => fit steps' (amt / factor) u'
    | _, _ => (amt, u)
    end.

(** The rule over a sequence of units: take the first unit whose
    denominator divides [micros] exactly; step its amount up while it
    exceeds 99,999,999; the result is the amount followed by the suffix,
    and there is none if the amount in hours still exceeds the bound. *)
Definition rule_on (units : list time_unit) (micros : Z) : option jsstring :=
  match find (fun u => Z.rem micros (unit_micros u) =? 0) units with
  | Some u =>
      let (amt, u') := fit 4 (Z.quot micros (unit_micros u)) u in
      if amt <=? 99999999 then Some (number_toString amt ++ unit_suffix u')
      else None
  | None => None
  end.

(** The rule on the units in the order H, M, S, m, u; no result is an
    out-of-range error. *)
Definition interval_rule (micros : Z) : result jsstring :=
  match rule_on unit_order micros with
  | Some r => Ok r
  | None => Throw (RangeError "interval encode failed")
  end.

(** How many steps lead from a unit up to hours. *)
Definition rank (u : time_unit) : nat :=
  match u with
  | Hours => 0
  | Minutes => 1
  | Seconds => 2
  | Millis => 3
  | Micros => 4
  end.

(** What a decoding stream holds: nothing before the first chunk. *)
Definition held {Obj : Type} (this : DecodingStream.t Obj) : Buffer :=
  match DecodingStream._buffer this with
  | Some b => b
  | None => []
  end.

(** A decoding stream without an unmarshaller. *)
Definition raw {Obj : Type} (this : DecodingStream.t Obj) : Prop :=
  DecodingStream._unmarshal this = None.

(** [c] is an ASCII character: a code unit in 0x00..0x7F. *)
Definition ascii_code (c : N) : Prop := (c <= 127)%N.

(** ** EncodingStream *)

Module EncodingStream.

Section Stream.
Context {Obj : Type}.

(** The field of the stream: [_marshal]. *)
Record t : Type := mk {
  _marshal : option (jsval Obj -> result Buffer)
}.

(** The constructor: [this._marshal = opts.marshal]. *)
Definition new (opts : Opts Obj) : t := mk (marshal opts).

(** The setter of the property [marshal]. *)
Definition set_marshal (this : t) (x : option (jsval Obj -> result Buffer))
  : t := mk x.

(** [_transform(msg, unused_encoding, next)]: [encodeMessage] with the
    marshaller of the stream; the buffer is pushed, or the error is
    emitted and [next] is not called. *)
Definition _transform (this : t) (msg : jsval Obj) : result Buffer :=
  encodeMessage msg (mkOpts (_marshal this) None).

(** The stream machinery: every written message goes through
    [_transform] in order, until one fails.  The result is what was
    pushed, and the error that ended the stream, if any. *)
Fixpoint write_all (this : t) (msgs : list (jsval Obj))
  : list Buffer * option JsError :=
  match msgs with
  | [] => ([], None)
  | msg :: rest =>
      match _transform this msg with
      | Throw err => ([], Some err)
      | Ok encoded =>
          let (outs, r) := write_all this rest in
          (encoded :: outs, r)
      end
  end.

(** A whole run of a stream built from [opts]. *)
Definition run (opts : Opts Obj) (msgs : list (jsval Obj))
  : list Buffer * option JsError :=
  write_all (new opts) msgs.

End Stream.

Arguments t : clear implicits.

End EncodingStream.

(** ** Further notions the properties are stated with *)

(** The results of a sequence of deliveries, up to the first that
    throws. *)
Fixpoint deliver_all {Obj : Type} (opts : Opts Obj) (payloads : list Buffer)
  : list (jsval Obj) * option JsError :=
  match payloads with
  | [] => ([], None)
  | p :: rest =>
      match deliver opts p with
      | Throw err => ([], Some err)
      | Ok v =>
          let (vs, r) := deliver_all opts rest in
          (v :: vs, r)
      end
  end.

(** The bytes [encodeMessage] puts in a frame: what the marshaller makes
    of the message, or the message itself when there is none. *)
Definition marshalled {Obj : Type} (opts : Opts Obj) (message : jsval Obj)
  : result Buffer :=
  match marshal opts with
  | Some f => f message
  | None =>
      match message with
      | VBuffer b => Ok b
      | VObject _ => Throw (TypeError "Invalid non-string/buffer chunk")
      end
  end.

(** The options a decoding stream decodes with. *)
Definition opts_of {Obj : Type} (this : DecodingStream.t Obj) : Opts Obj :=
  mkOpts None (DecodingStream._unmarshal this).


(** A metadata value without an empty string in it. *)
Definition no_empty_string (v : mdvalue) : Prop :=
  match v with
  | VScalar x => x <> SString []
  | VArray xs => ~ In (SString []) xs
  end.

(** A string is made of ASCII characters, one or more. *)
Definition ascii_string (s : jsstring) : Prop :=
  s <> [] /\ Forall ascii_code s.

(** A metadata value as it may be sent in a header: strings of ASCII
    characters, empty ones included, and no [Buffer]. *)
Definition header_scalar (x : scalar) : Prop :=
  match x with
  | SString s => Forall ascii_code s
  | SBuffer _ => False
  end.

Definition header_safe (v : mdvalue) : Prop :=
  match v with
  | VScalar x => header_scalar x
  | VArray xs => Forall header_scalar xs
  end.

(** A single value that has to be sent as base64: a [Buffer], or a
    string that is not made of one or more ASCII characters. *)
Definition binary_scalar (x : scalar) : Prop :=
  match x with
  | SBuffer _ => True
  | SString s => ~ ascii_string s
  end.

(** The base64 text of a single value. *)
Definition base64_of (x : scalar) : scalar :=
  SString (toString_base64 (Buffer_from x)).

(** * Properties *)

(** ** Bytes and headers *)

Lemma byte_to_Z_range (b : byte) : 0 <= byte_to_Z b < 256.
Proof.
  unfold byte_to_Z. pose proof (Byte.to_N_bounded b) as H. lia.
Qed.

Lemma byte_to_of_Z (z : Z) : byte_to_Z (byte_of_Z z) = z mod 256.
Proof.
  unfold byte_to_Z, byte_of_Z.
  assert (Hr : 0 <= z mod 256 < 256) by (apply Z.mod_pos_bound; lia).
  destruct (Byte.of_N (Z.to_N (z mod 256))) as [b|] eqn:E.
  - apply Byte.to_of_N in E. rewrite E. lia.
  - apply Byte.of_N_None_iff in E. lia.
Qed.

Lemma byte_of_to_Z (b : byte) : byte_of_Z (byte_to_Z b) = b.
Proof.
  unfold byte_of_Z. pose proof (byte_to_Z_range b) as H.
  rewrite Z.mod_small by lia. unfold byte_to_Z.
  rewrite N2Z.id, Byte.of_to_N. reflexivity.
Qed.

Lemma byte_to_Z_zero (b : byte) : byte_to_Z b = 0 <-> b = x00.
Proof.
  split; intro H.
  - rewrite <- (byte_of_to_Z b), H. reflexivity.
  - subst b. reflexivity.
Qed.

Lemma lor_shiftl_small (hi lo k : Z) :
  0 <= k -> 0 <= lo < 2 ^ k -> Z.lor (Z.shiftl hi k) lo = hi * 2 ^ k + lo.
Proof.
  intros Hk Hlo.
  rewrite Z.shiftl_mul_pow2 by assumption.
  assert (Hland : Z.land (hi * 2 ^ k) lo = 0).
  { apply Z.bits_inj'. intros i Hi.
    rewrite Z.land_spec, Z.bits_0.
    destruct (Z.ltb_spec i k) as [Hlt | Hge].
    - rewrite Z.mul_pow2_bits_low by lia. reflexivity.
    - rewrite <- (Z.mod_small lo (2 ^ k)) by assumption.
      rewrite Z.mod_pow2_bits_high by lia. apply andb_false_r. }
  rewrite <- Z.lxor_lor by assumption.
  symmetry. apply Z.add_nocarry_lxor. assumption.
Qed.

Lemma readUInt32BE_be32 (c b1 b2 b3 b4 : byte) (rest : Buffer) :
  readUInt32BE (c :: b1 :: b2 :: b3 :: b4 :: rest) LENGTH_INDEX
  = be32 b1 b2 b3 b4.
Proof.
  unfold readUInt32BE, readUInt8, LENGTH_INDEX, be32. simpl nth.
  pose proof (byte_to_Z_range b1). pose proof (byte_to_Z_range b2).
  pose proof (byte_to_Z_range b3). pose proof (byte_to_Z_range b4).
  rewrite (lor_shiftl_small (byte_to_Z b3) (byte_to_Z b4) 8) by lia.
  rewrite (lor_shiftl_small (byte_to_Z b2) _ 16) by lia.
  change (2 ^ 8) with 256. change (2 ^ 16) with 65536. lia.
Qed.

Lemma be32_range (b1 b2 b3 b4 : byte) : 0 <= be32 b1 b2 b3 b4 < 2 ^ 32.
Proof.
  unfold be32.
  pose proof (byte_to_Z_range b1). pose proof (byte_to_Z_range b2).
  pose proof (byte_to_Z_range b3). pose proof (byte_to_Z_range b4).
  change (2 ^ 32) with 4294967296. lia.
Qed.

Lemma be32_of_Z (n : Z) :
  be32 (byte_of_Z (Z.shiftr n 24)) (byte_of_Z (Z.shiftr n 16))
       (byte_of_Z (Z.shiftr n 8)) (byte_of_Z n) = n mod 2 ^ 32.
Proof.
  unfold be32. rewrite !byte_to_of_Z, !Z.shiftr_div_pow2 by lia.
  change (2 ^ 24) with 16777216. change (2 ^ 16) with 65536.
  change (2 ^ 8) with 256. change (2 ^ 32) with 4294967296.
  Z.to_euclidean_division_equations. lia.
Qed.

(** The header [getBody] builds does not depend on what the fresh buffer
    held. *)
Lemma header_any_fill (buf : Buffer) (this : MsgHeaderStream.t) :
  List.length buf = 5%nat ->
  MsgHeaderStream.header_in buf this
  = MsgHeaderStream.header_in (alloc 5) this.
Proof.
  intro Hlen.
  destruct buf as [|a0 [|a1 [|a2 [|a3 [|a4 [|a5 tl]]]]]]; try discriminate.
  reflexivity.
Qed.

Lemma pipe_to_header_eq (p : Buffer) :
  pipe_to_header p
  = x00 :: byte_of_Z (Z.shiftr (len p) 24) :: byte_of_Z (Z.shiftr (len p) 16)
      :: byte_of_Z (Z.shiftr (len p) 8) :: byte_of_Z (len p) :: p.
Proof.
  destruct p as [|b p']; [reflexivity|].
  unfold pipe_to_header, readable_chunks, MsgHeaderStream.getBody.
  cbn [fold_left MsgHeaderStream._write MsgHeaderStream.new
       MsgHeaderStream.body MsgHeaderStream.size app].
  unfold MsgHeaderStream.header_in, writeUInt32BE, writeUInt8, alloc.
  cbn [MsgHeaderStream.size repeat set Nat.add Buf.concat List.concat app].
  rewrite app_nil_r.
  change (MsgHeaderStream.size
            (MsgHeaderStream._write MsgHeaderStream.new (b :: p')))
    with (0 + len (b :: p')).
  rewrite Z.add_0_l. reflexivity.
Qed.

(** ** The frame codec *)

Section FrameCodec.
Context {Obj : Type}.
Implicit Types (opts : Opts Obj) (p payload : Buffer).

Lemma len_cons (b : byte) p : len (b :: p) = 1 + len p.
Proof. unfold len. cbn [List.length]. lia. Qed.

Lemma len_nonneg p : 0 <= len p.
Proof. unfold len. lia. Qed.

Lemma len_app p q : len (p ++ q) = len p + len q.
Proof. unfold len. rewrite length_app. lia. Qed.

(** [decodeMessage] on a buffer that has a whole header. *)
Lemma decodeMessage_frame (c b1 b2 b3 b4 : byte) payload opts :
  decodeMessage (c :: b1 :: b2 :: b3 :: b4 :: payload) opts
  = if (byte_to_Z c =? 0) && negb (len payload =? be32 b1 b2 b3 b4)
    then Throw (Error "Encoded message length is wrong")
    else deliver opts payload.
Proof.
  unfold decodeMessage.
  assert (Hlen : (len (c :: b1 :: b2 :: b3 :: b4 :: payload)
                  <? MINIMUM_ENCODED_LENGTH) = false).
  { apply Z.ltb_ge. rewrite !len_cons. pose proof (len_nonneg payload).
    unfold MINIMUM_ENCODED_LENGTH. lia. }
  rewrite Hlen, readUInt32BE_be32.
  reflexivity.
Qed.

Lemma decodeMessage_short (encoded : Buffer) opts :
  len encoded < 5 ->
  decodeMessage encoded opts
  = Throw (RangeError "Encoded message was smaller than 5").
Proof.
  intro H. unfold decodeMessage, MINIMUM_ENCODED_LENGTH.
  apply Z.ltb_lt in H. rewrite H. reflexivity.
Qed.

Lemma encodeMessage_plain p :
  encodeMessage (Obj:=Obj) (VBuffer p) noOpts = Ok (pipe_to_header p).
Proof. reflexivity. Qed.

Lemma decode_pipe_to_header p :
  len p < 2 ^ 32 ->
  decodeMessage (Obj:=Obj) (pipe_to_header p) noOpts = Ok (VBuffer p).
Proof.
  intro H. rewrite pipe_to_header_eq, decodeMessage_frame, be32_of_Z.
  rewrite Z.mod_small by (pose proof (len_nonneg p); lia).
  rewrite (Z.eqb_refl (len p)), andb_false_r. reflexivity.
Qed.

End FrameCodec.

(** C1.  Frame round trip: for every [Buffer] [p], [encodeMessage]
    without a marshaller
    yields the five-byte header [0, |p| as unsigned 32-bit big-endian]
    followed by [p], and [decodeMessage] without an unmarshaller applied
    to that output yields [p] again. *)
Theorem frame_round_trip (Obj : Type) (p : Buffer) :
  Buf.wf p ->
  (exists b1 b2 b3 b4,
      encodeMessage (Obj:=Obj) (VBuffer p) noOpts
      = Ok (x00 :: b1 :: b2 :: b3 :: b4 :: p)
      /\ be32 b1 b2 b3 b4 = len p)
  /\ (encoded <- encodeMessage (Obj:=Obj) (VBuffer p) noOpts ;;
      decodeMessage (Obj:=Obj) encoded noOpts) = Ok (VBuffer p).
Proof.
  intro Hmax.
  assert (Hlt : len p < 2 ^ 32) by (unfold Buf.wf, kMaxLength in Hmax; lia).
  split.
  - rewrite encodeMessage_plain, pipe_to_header_eq.
    do 4 eexists. split; [reflexivity|].
    rewrite be32_of_Z. apply Z.mod_small. pose proof (len_nonneg p). lia.
  - rewrite encodeMessage_plain. cbn [bind].
    apply decode_pipe_to_header. assumption.
Qed.

Lemma frame_round_trip_witness :
  Buf.wf [x01; x02; x03]
  /\ (encoded <- encodeMessage (Obj:=unit) (VBuffer [x01; x02; x03]) noOpts ;;
      decodeMessage (Obj:=unit) encoded noOpts) = Ok (VBuffer [x01; x02; x03]).
Proof.
  assert (H : Buf.wf [x01; x02; x03]) by (vm_compute; discriminate).
  split; [exact H|].
  exact (proj2 (frame_round_trip unit [x01; x02; x03] H)).
Defined.

(** C4.  Length check: on a buffer [c, len as unsigned 32-bit
    big-endian, payload], [decodeMessage] fails when the compression byte
    [c] is 0 and [len] differs from the length of the payload; when [c]
    is not 0 the check is bypassed, and the payload is delivered (to the
    unmarshaller if there is one) whatever [len] says. *)
Theorem length_check (Obj : Type) (opts : Opts Obj)
    (c b1 b2 b3 b4 : byte) (payload : Buffer) :
  (c = x00 -> be32 b1 b2 b3 b4 <> len payload ->
   decodeMessage (c :: b1 :: b2 :: b3 :: b4 :: payload) opts
   = Throw (Error "Encoded message length is wrong"))
  /\ (c <> x00 ->
      decodeMessage (c :: b1 :: b2 :: b3 :: b4 :: payload) opts
      = deliver opts payload).
Proof.
  split.
  - intros -> Hne. rewrite decodeMessage_frame.
    change (byte_to_Z x00 =? 0) with true. cbn [andb].
    destruct (Z.eqb_spec (len payload) (be32 b1 b2 b3 b4)) as [E|_];
      [congruence | reflexivity].
  - intro Hc. rewrite decodeMessage_frame.
    destruct (Z.eqb_spec (byte_to_Z c) 0) as [E|_]; [|reflexivity].
    apply byte_to_Z_zero in E. contradiction.
Qed.

Lemma length_check_witness :
  (be32 x00 x00 x00 x02 <> len [x41]
   /\ decodeMessage (Obj:=unit) [x00; x00; x00; x00; x02; x41] noOpts
      = Throw (Error "Encoded message length is wrong"))
  /\ (x01 <> x00
      /\ decodeMessage (Obj:=unit) [x01; x00; x00; x00; x02; x41] noOpts
         = Ok (VBuffer [x41])).
Proof.
  assert (H1 : be32 x00 x00 x00 x02 <> len [x41]) by (vm_compute; discriminate).
  assert (H2 : x01 <> x00) by discriminate.
  split; split; try assumption.
  - exact (proj1 (length_check unit noOpts x00 x00 x00 x00 x02 [x41])
             eq_refl H1).
  - exact (proj2 (length_check unit noOpts x01 x00 x00 x00 x02 [x41]) H2).
Defined.

(** C5.  Minimum length: [decodeMessage] fails with a [RangeError] on
    every buffer shorter than five bytes, and a buffer of exactly five
    zero bytes decodes to the empty payload. *)
Theorem minimum_length (Obj : Type) (opts : Opts Obj) (encoded : Buffer) :
  (len encoded < 5 ->
   decodeMessage encoded opts
   = Throw (RangeError "Encoded message was smaller than 5"))
  /\ decodeMessage [x00; x00; x00; x00; x00] opts = deliver opts []
  /\ decodeMessage (Obj:=Obj) [x00; x00; x00; x00; x00] noOpts
     = Ok (VBuffer []).
Proof.
  split; [apply decodeMessage_short|].
  split; rewrite decodeMessage_frame; reflexivity.
Qed.

Lemma minimum_length_witness :
  len [x00; x00; x00; x00] < 5
  /\ decodeMessage (Obj:=unit) [x00; x00; x00; x00] noOpts
     = Throw (RangeError "Encoded message was smaller than 5").
Proof.
  assert (H : len [x00; x00; x00; x00] < 5) by (vm_compute; reflexivity).
  split; [exact H|].
  exact (proj1 (minimum_length unit noOpts [x00; x00; x00; x00]) H).
Defined.

(** ** The decoding stream *)

Section Streaming.
Context {Obj : Type}.
Implicit Types (this : DecodingStream.t Obj) (m chunk pre : Buffer).

Lemma pipe_to_header_len m : len (pipe_to_header m) = 5 + len m.
Proof. rewrite pipe_to_header_eq, !len_cons. lia. Qed.

(** [_transform] of a stream without an unmarshaller, in terms of what
    the stream holds. *)
Lemma transform_on_held this chunk :
  raw this ->
  DecodingStream._transform this chunk
  = let buffer := held this ++ chunk in
    if len buffer <? MINIMUM_ENCODED_LENGTH then
      Ok (DecodingStream.mk (Some buffer) None, [])
    else if len buffer
            <? readUInt32BE buffer LENGTH_INDEX + MINIMUM_ENCODED_LENGTH then
      Ok (DecodingStream.mk (Some buffer) None, [])
    else
      Ok (DecodingStream.mk
            (Some (slice_from buffer
                     (readUInt32BE buffer LENGTH_INDEX
                      + MINIMUM_ENCODED_LENGTH))) None,
          [VBuffer (slice buffer MINIMUM_ENCODED_LENGTH
                      (readUInt32BE buffer LENGTH_INDEX
                       + MINIMUM_ENCODED_LENGTH))]).
Proof.
  unfold raw. destruct this as [[b|] u]; cbn [DecodingStream._unmarshal];
    intros ->; unfold DecodingStream._transform, held;
    cbn [DecodingStream._buffer DecodingStream._unmarshal Buf.concat
         List.concat app bind]; rewrite ?app_nil_r; reflexivity.
Qed.

(** A chunk that leaves the buffer a strict prefix of a frame is kept,
    and nothing is pushed. *)
Lemma transform_keeps_prefix this chunk m rest :
  raw this -> len m < 2 ^ 32 ->
  (held this ++ chunk) ++ rest = pipe_to_header m -> rest <> [] ->
  DecodingStream._transform this chunk
  = Ok (DecodingStream.mk (Some (held this ++ chunk)) None, []).
Proof.
  intros Hraw Hm Hsplit Hrest.
  assert (Hlen : len (held this ++ chunk) < 5 + len m).
  { rewrite <- pipe_to_header_len, <- Hsplit, !len_app.
    destruct rest; [contradiction|]. rewrite len_cons.
    pose proof (len_nonneg rest). lia. }
  rewrite transform_on_held by assumption. cbv zeta.
  destruct (Z.ltb_spec (len (held this ++ chunk)) MINIMUM_ENCODED_LENGTH)
    as [_|Hge]; [reflexivity|].
  rewrite pipe_to_header_eq in Hsplit.
  destruct (held this ++ chunk) as [|c [|b1 [|b2 [|b3 [|b4 tl]]]]] eqn:E;
    try (unfold MINIMUM_ENCODED_LENGTH in Hge; rewrite ?len_cons in Hge;
         change (len []) with 0 in Hge; lia).
  injection Hsplit as -> -> -> -> -> Htl.
  rewrite readUInt32BE_be32, be32_of_Z, Z.mod_small
    by (pose proof (len_nonneg m); lia).
  unfold MINIMUM_ENCODED_LENGTH.
  destruct (Z.ltb_spec
              (len (x00 :: byte_of_Z (Z.shiftr (len m) 24)
                      :: byte_of_Z (Z.shiftr (len m) 16)
                      :: byte_of_Z (Z.shiftr (len m) 8)
                      :: byte_of_Z (len m) :: tl)) (len m + 5))
    as [_|Hge']; [reflexivity | lia].
Qed.

(** A chunk that completes a frame makes the stream push its payload and
    keep what follows the frame. *)
Lemma transform_emits_frame this chunk m extra :
  raw this -> len m < 2 ^ 32 ->
  held this ++ chunk = pipe_to_header m ++ extra ->
  DecodingStream._transform this chunk
  = Ok (DecodingStream.mk (Some extra) None, [VBuffer m]).
Proof.
  intros Hraw Hm Hsplit.
  rewrite transform_on_held by assumption. cbv zeta.
  rewrite Hsplit.
  assert (Hlen : len (pipe_to_header m ++ extra) = 5 + len m + len extra)
    by (rewrite len_app, pipe_to_header_len; reflexivity).
  pose proof (len_nonneg m) as Hm0. pose proof (len_nonneg extra) as He0.
  unfold MINIMUM_ENCODED_LENGTH.
  destruct (Z.ltb_spec (len (pipe_to_header m ++ extra)) 5) as [Hlt|_];
    [lia|].
  rewrite pipe_to_header_eq in *. cbn [app] in *.
  rewrite readUInt32BE_be32, be32_of_Z, Z.mod_small by lia.
  match goal with
  | |- context [len ?b <? len m + 5] =>
      destruct (Z.ltb_spec (len b) (len m + 5)) as [Hlt|_]; [lia|]
  end.
  cbn [bind]. unfold slice, slice_from.
  replace (Z.to_nat (len m + 5)) with (5 + List.length m)%nat
    by (unfold len; lia).
  change (Z.to_nat 5) with 5%nat.
  replace (5 + List.length m - 5)%nat with (List.length m) by lia.
  cbn [skipn Nat.add].
  rewrite firstn_app, Nat.sub_diag, firstn_all, firstn_O, app_nil_r.
  rewrite skipn_app, Nat.sub_diag, skipn_all. reflexivity.
Qed.

(** Empty chunks, fed to a stream that holds nothing, change nothing. *)
Lemma write_all_empty_chunks this chunks :
  raw this -> held this = [] -> List.concat chunks = [] ->
  exists this',
    DecodingStream.write_all this chunks = ([], Ok this')
    /\ raw this' /\ held this' = [].
Proof.
  revert this. induction chunks as [|chunk chunks IH]; intros this Hraw Hh Hc.
  - exists this. repeat split; assumption.
  - cbn [List.concat] in Hc. apply app_eq_nil in Hc as [-> Hc].
    cbn [DecodingStream.write_all].
    assert (Hstep : DecodingStream._transform this []
                    = Ok (DecodingStream.mk (Some []) None, [])).
    { rewrite transform_on_held by assumption. cbv zeta. rewrite Hh. reflexivity. }
    rewrite Hstep.
    destruct (IH (DecodingStream.mk (Some []) None) eq_refl eq_refl Hc)
      as [this' [Hw [Hr' Hh']]].
    rewrite Hw. exists this'. repeat split; assumption.
Qed.

(** One frame, cut into chunks in any way: the stream pushes its payload
    once, and holds nothing afterwards. *)
Lemma write_all_one_frame m chunks : forall this,
  raw this -> len m < 2 ^ 32 ->
  held this ++ List.concat chunks = pipe_to_header m ->
  len (held this) < len (pipe_to_header m) ->
  exists this',
    DecodingStream.write_all this chunks = ([VBuffer m], Ok this')
    /\ raw this' /\ held this' = [].
Proof.
  induction chunks as [|chunk chunks IH]; intros this Hraw Hm Hsplit Hshort.
  - cbn [List.concat] in Hsplit. rewrite app_nil_r in Hsplit.
    rewrite Hsplit in Hshort. lia.
  - cbn [List.concat] in Hsplit. rewrite app_assoc in Hsplit.
    cbn [DecodingStream.write_all].
    destruct (List.concat chunks) as [|b rest] eqn:Erest.
    + rewrite app_nil_r in Hsplit.
      rewrite (transform_emits_frame this chunk m []) ;
        [|assumption|assumption|rewrite app_nil_r; assumption].
      destruct (write_all_empty_chunks (DecodingStream.mk (Some []) None)
                  chunks eq_refl eq_refl Erest) as [this' [Hw [Hr' Hh']]].
      rewrite Hw. exists this'. repeat split; assumption.
    + rewrite (transform_keeps_prefix this chunk m (b :: rest));
        [|assumption|assumption|assumption|discriminate].
      destruct (IH (DecodingStream.mk (Some (held this ++ chunk)) None))
        as [this' [Hw [Hr' Hh']]].
      * reflexivity.
      * assumption.
      * cbn [held DecodingStream._buffer]. assumption.
      * cbn [held DecodingStream._buffer]. rewrite <- Hsplit, !len_app, len_cons.
        pose proof (len_nonneg rest). lia.
      * rewrite Hw. exists this'. repeat split; assumption.
Qed.

Lemma write_all_app this chunks1 chunks2 outs1 this1 :
  DecodingStream.write_all this chunks1 = (outs1, Ok this1) ->
  DecodingStream.write_all this (chunks1 ++ chunks2)
  = (outs1 ++ fst (DecodingStream.write_all this1 chunks2),
     snd (DecodingStream.write_all this1 chunks2)).
Proof.
  revert this outs1. induction chunks1 as [|c cs IH]; intros this outs1 H.
  - cbn in H. injection H as <- <-. cbn [app].
    destruct (DecodingStream.write_all this chunks2); reflexivity.
  - cbn [DecodingStream.write_all app] in *.
    destruct (DecodingStream._transform this c) as [[this' out]|err];
      [|discriminate].
    destruct (DecodingStream.write_all this' cs) as [outs r] eqn:E.
    injection H as <- ->.
    rewrite (IH this' outs E), app_assoc. reflexivity.
Qed.

(** Frames in sequence, each cut into chunks in any way that keeps the
    cuts between frames: the stream pushes the payloads in order. *)
Lemma write_all_frames (ms : list Buffer) : forall (css : list (list Buffer)) this,
  raw this -> held this = [] ->
  Forall (fun m => len m < 2 ^ 32) ms ->
  Forall2 (fun m cs => List.concat cs = pipe_to_header m) ms css ->
  exists this',
    DecodingStream.write_all this (List.concat css)
    = (map VBuffer ms, Ok this')
    /\ raw this' /\ held this' = [].
Proof.
  induction ms as [|m ms IH]; intros css this Hraw Hh Hlen Hcss.
  - inversion Hcss; subst. exists this. repeat split; assumption.
  - inversion Hcss as [|m' cs ms' css' Hcs Hrest]; subst.
    inversion Hlen as [|m' ms' Hm Hms]; subst.
    cbn [List.concat map].
    destruct (write_all_one_frame m cs this Hraw Hm) as [this1 [Hw [Hr1 Hh1]]].
    + rewrite Hh. exact Hcs.
    + rewrite Hh, pipe_to_header_len. change (len []) with 0.
      pose proof (len_nonneg m). lia.
    + destruct (IH css' this1 Hr1 Hh1 Hms Hrest) as [this' [Hw' [Hr' Hh']]].
      exists this'. split; [|split; assumption].
      pose proof (write_all_app this cs (@List.concat Buffer css') _ this1 Hw)
        as Happ.
      rewrite Hw' in Happ. exact Happ.
Qed.

End Streaming.

(** Streaming and one-shot decoding agree on every chunking that cuts the
    input between frames too: if each message's frame is cut into chunks
    of its own (one chunk per frame, one chunk per byte, or anything in
    between), the stream emits exactly the messages, in order, and ends
    without an error. *)
Theorem stream_frame_respecting_split (Obj : Type)
    (ms : list Buffer) (css : list (list Buffer)) :
  Forall Buf.wf ms ->
  Forall2 (fun m cs => List.concat cs = pipe_to_header m) ms css ->
  DecodingStream.run (Obj:=Obj) noOpts (List.concat css)
  = (map VBuffer ms, None).
Proof.
  intros Hlen Hcss.
  assert (Hlen' : Forall (fun m => len m < 2 ^ 32) ms).
  { eapply Forall_impl; [|exact Hlen].
    unfold Buf.wf, kMaxLength. intros; cbv beta in *. lia. }
  destruct (write_all_frames (Obj:=Obj) ms css (DecodingStream.new noOpts)
              eq_refl eq_refl Hlen' Hcss) as [this' [Hw [Hr' Hh']]].
  unfold DecodingStream.run. rewrite Hw.
  unfold DecodingStream._flush. unfold held in Hh'.
  destruct (DecodingStream._buffer this') as [b|]; [subst b|];
    cbn; rewrite app_nil_r; reflexivity.
Qed.

(** One chunk for each frame. *)
Corollary stream_frame_aligned (Obj : Type) (ms : list Buffer) :
  Forall Buf.wf ms ->
  DecodingStream.run (Obj:=Obj) noOpts (map pipe_to_header ms)
  = (map VBuffer ms, None).
Proof.
  intro Hlen.
  rewrite <- (stream_frame_respecting_split Obj ms
                (map (fun m => [pipe_to_header m]) ms) Hlen).
  - f_equal. clear Hlen. induction ms as [|m ms IH]; [reflexivity|].
    cbn [map List.concat app]. rewrite IH. reflexivity.
  - clear Hlen. induction ms as [|m ms IH]; constructor; [|assumption].
    cbn [List.concat]. apply app_nil_r.
Qed.

(** One chunk for each byte. *)
Corollary stream_byte_wise (Obj : Type) (ms : list Buffer) :
  Forall Buf.wf ms ->
  DecodingStream.run (Obj:=Obj) noOpts
    (map (fun b => [b]) (List.concat (map pipe_to_header ms)))
  = (map VBuffer ms, None).
Proof.
  intro Hlen.
  rewrite <- (stream_frame_respecting_split Obj ms
                (map (fun m => map (fun b => [b]) (pipe_to_header m)) ms)
                Hlen).
  - f_equal. clear Hlen. induction ms as [|m ms IH]; [reflexivity|].
    cbn [map List.concat]. rewrite map_app, IH. reflexivity.
  - clear Hlen. induction ms as [|m ms IH]; constructor; [|assumption].
    induction (pipe_to_header m) as [|b l IHl]; [reflexivity|].
    cbn [map List.concat app]. rewrite IHl. reflexivity.
Qed.

(** [_transform] never pushes more than one message, whatever the chunk
    holds. *)
Lemma transform_pushes_at_most_one (Obj : Type)
    (this this' : DecodingStream.t Obj) (chunk : Buffer)
    (out : list (jsval Obj)) :
  DecodingStream._transform this chunk = Ok (this', out) ->
  (List.length out <= 1)%nat.
Proof.
  unfold DecodingStream._transform.
  repeat match goal with
         | |- context [if ?c then _ else _] => destruct c
         end;
    try (intro H; injection H as <- <-; cbn; lia).
  destruct (match DecodingStream._unmarshal this with
            | Some f => f _
            | None => _
            end) as [pushed|err]; cbn [bind]; intro H;
    [injection H as <- <-; cbn; lia | discriminate].
Qed.

(** Three frames in one chunk: the first message is emitted, and the
    flush fails on the two frames left in the buffer. *)
Lemma stream_three_frames_one_chunk (Obj : Type) (m1 m2 m3 : Buffer) :
  Buf.wf m1 -> Buf.wf m2 ->
  DecodingStream.run (Obj:=Obj) noOpts
    [pipe_to_header m1 ++ pipe_to_header m2 ++ pipe_to_header m3]
  = ([VBuffer m1], Some (Error "Encoded message length is wrong")).
Proof.
  unfold Buf.wf, kMaxLength. intros H1 H2.
  unfold DecodingStream.run. cbn [DecodingStream.write_all].
  rewrite (transform_emits_frame (DecodingStream.new noOpts) _ m1
             (pipe_to_header m2 ++ pipe_to_header m3));
    [|reflexivity|lia|reflexivity].
  cbn [app]. unfold DecodingStream._flush. cbn [DecodingStream._buffer].
  assert (Hlen : (len (pipe_to_header m2 ++ pipe_to_header m3) =? 0) = false).
  { apply Z.eqb_neq. rewrite len_app, !pipe_to_header_len.
    pose proof (len_nonneg m2). pose proof (len_nonneg m3). lia. }
  rewrite Hlen, (pipe_to_header_eq m2). cbn [app].
  rewrite decodeMessage_frame, be32_of_Z, Z.mod_small
    by (pose proof (len_nonneg m2); lia).
  assert (Hne : (len (m2 ++ pipe_to_header m3) =? len m2) = false).
  { apply Z.eqb_neq. rewrite len_app, pipe_to_header_len.
    pose proof (len_nonneg m3). lia. }
  rewrite Hne. reflexivity.
Qed.

(** C2 (the code departs from it).  [_transform] pushes at most one
    message for each chunk: given one chunk that holds the frames of "A"
    and of "BC", it pushes "A" and asks for more input with the frame of
    "BC" still buffered.  A run on one chunk that holds the frames of
    "A", "BC" and "D" therefore emits "A" only, and ends at the flush with
    the error of [decodeMessage] on the two buffered frames, where the
    three messages were to be emitted. *)
Theorem stream_one_chunk_not_drained :
  DecodingStream._transform (Obj:=unit) (DecodingStream.new noOpts)
    (pipe_to_header [x41] ++ pipe_to_header [x42; x43])
  = Ok (DecodingStream.mk (Some (pipe_to_header [x42; x43])) None,
        [VBuffer [x41]])
  /\ DecodingStream.run (Obj:=unit) noOpts
       [pipe_to_header [x41] ++ pipe_to_header [x42; x43]
        ++ pipe_to_header [x44]]
     = ([VBuffer [x41]], Some (Error "Encoded message length is wrong"))
  /\ DecodingStream.run (Obj:=unit) noOpts
       [pipe_to_header [x41] ++ pipe_to_header [x42; x43]
        ++ pipe_to_header [x44]]
     <> ([VBuffer [x41]; VBuffer [x42; x43]; VBuffer [x44]], None).
Proof.
  split; [reflexivity|]. split; [reflexivity|].
  vm_compute. discriminate.
Qed.

(** The fragmentation of scenario S3: the frames of "A" and "BC" in three
    chunks, the second of which ends one frame and begins the next. *)
Example stream_scenario_S3 :
  DecodingStream.run (Obj:=unit) noOpts
    [[x00; x00; x00; x00; x01]; [x41; x00; x00; x00]; [x00; x02; x42; x43]]
  = ([VBuffer [x41]; VBuffer [x42; x43]], None).
Proof. reflexivity. Qed.

(** Scenarios S1 and S2: the frames of the empty payload and of a
    three-byte payload. *)
Example frame_scenarios :
  encodeMessage (Obj:=unit) (VBuffer []) noOpts
  = Ok [x00; x00; x00; x00; x00]
  /\ encodeMessage (Obj:=unit) (VBuffer [x01; x02; x03]) noOpts
     = Ok [x00; x00; x00; x00; x03; x01; x02; x03].
Proof. split; reflexivity. Qed.

(** ** Intervals *)

Lemma maxInterval_eq : maxInterval = 99999999.
Proof. reflexivity. Qed.

Lemma jsstring_eqb_eq (a b : jsstring) : jsstring_eqb a b = true <-> a = b.
Proof.
  unfold jsstring_eqb. destruct (list_eq_dec N.eq_dec a b); split;
    congruence.
Qed.

Lemma jsstring_eqb_refl (a : jsstring) : jsstring_eqb a a = true.
Proof. apply jsstring_eqb_eq. reflexivity. Qed.

Lemma microsBySuffix_units :
  microsBySuffix = map (fun u => (unit_suffix u, unit_micros u)) unit_order.
Proof. reflexivity. Qed.

Lemma unit_micros_pos (u : time_unit) : 0 < unit_micros u.
Proof. destruct u; reflexivity. Qed.

Lemma step_up_unit (amt : Z) (u : time_unit) :
  step_up amt (unit_suffix u)
  = match coarser u with
    | Some (factor, u') => (amt / factor, unit_suffix u')
    | None => (amt, unit_suffix u)
    end.
Proof. destruct u; reflexivity. Qed.

Lemma is_hours_unit (u : time_unit) :
  jsstring_eqb (unit_suffix u) (str "H")
  = match coarser u with Some _ => false | None => true end.
Proof. destruct u; reflexivity. Qed.

Lemma coarser_rank (u u' : time_unit) (factor : Z) :
  coarser u = Some (factor, u') -> rank u = S (rank u').
Proof. destruct u; cbn; intro H; inversion H; reflexivity. Qed.

(** The bound on the turns of the [while] loop is never reached: with
    enough turns to reach hours, the loop is the stepping-up of the
    rule. *)
Lemma while_loop_fuel (fuel : nat) : forall (steps : nat) (u : time_unit) (amt : Z),
  (rank u <= fuel)%nat -> (rank u <= steps)%nat ->
  while_loop fuel amt (unit_suffix u)
  = (fst (fit steps amt u), unit_suffix (snd (fit steps amt u))).
Proof.
  induction fuel as [|fuel IH]; intros steps u amt Hf Hs.
  - destruct u; cbn in Hf; try lia.
    cbn [while_loop]. destruct steps; cbn [fit coarser];
      destruct (amt <=? 99999999); reflexivity.
  - cbn [while_loop]. rewrite is_hours_unit, step_up_unit, maxInterval_eq.
    destruct steps as [|steps].
    + destruct u; cbn in Hs; try lia. cbn [coarser negb fit].
      rewrite andb_false_r. destruct (amt <=? 99999999); reflexivity.
    + cbn [fit]. rewrite Z.leb_antisym.
      destruct (99999999 <? amt); cbn [negb andb]; [|reflexivity].
      destruct (coarser u) as [[factor u']|] eqn:E; cbn [negb];
        [|reflexivity].
      apply coarser_rank in E. apply IH; lia.
Qed.

(** Stepping up from a unit whose denominator divides [micros]: the
    amount reached is [micros] in the unit reached, floored, and the
    stepping stops below hours only on an amount that fits. *)
Lemma fit_exact (micros : Z) (u : time_unit) :
  Z.rem micros (unit_micros u) = 0 ->
  fst (fit 4 (Z.quot micros (unit_micros u)) u)
  = micros / unit_micros (snd (fit 4 (Z.quot micros (unit_micros u)) u))
  /\ (fst (fit 4 (Z.quot micros (unit_micros u)) u) <= 99999999
      \/ snd (fit 4 (Z.quot micros (unit_micros u)) u) = Hours).
Proof.
  intro Hrem.
  pose proof (Z.quot_rem' micros (unit_micros u)) as Hq.
  rewrite Hrem, Z.add_0_r in Hq.
  set (k := Z.quot micros (unit_micros u)) in *.
  clearbody k. clear Hrem. subst micros.
  destruct u; cbn [fit coarser unit_micros];
    repeat match goal with
    | |- context [?a <=? 99999999] =>
        destruct (Z.leb_spec a 99999999)
    end;
    cbn [fst snd unit_micros];
    (split; [Z.to_euclidean_division_equations; lia | auto; lia]).
Qed.

(** A dividing unit cannot fit once the amount in hours is too large. *)
Lemma fit_hopeless (micros : Z) (u : time_unit) :
  99999999 < micros / unit_micros Hours ->
  Z.rem micros (unit_micros u) = 0 ->
  (fst (fit 4 (Z.quot micros (unit_micros u)) u) <=? 99999999) = false.
Proof.
  intros Hbig Hrem. apply Z.leb_gt.
  destruct (fit_exact micros u Hrem) as [Hamt _]. rewrite Hamt.
  assert (Hpos : 0 <= micros).
  { destruct (Z.lt_ge_cases micros 0) as [Hneg|]; [|assumption].
    pose proof (Z.div_lt_upper_bound micros (unit_micros Hours) 0
                  (unit_micros_pos Hours)) as Hub.
    lia. }
  eapply Z.lt_le_trans; [exact Hbig|].
  apply Z.div_le_compat_l; [assumption|].
  split; [apply unit_micros_pos|].
  destruct (snd (fit 4 (Z.quot micros (unit_micros u)) u)); cbn; lia.
Qed.

Lemma rule_on_hopeless (micros : Z) (units : list time_unit) :
  99999999 < micros / unit_micros Hours -> rule_on units micros = None.
Proof.
  intro Hbig. unfold rule_on.
  destruct (find _ units) as [u|] eqn:E; [|reflexivity].
  apply find_some in E as [_ Hrem]. apply Z.eqb_eq in Hrem.
  pose proof (fit_hopeless micros u Hbig Hrem) as Hno.
  destruct (fit 4 (Z.quot micros (unit_micros u)) u) as [amt u'].
  cbn [fst] in Hno. rewrite Hno. reflexivity.
Qed.

(** The loop of [_.forEach] over any sequence of units is the rule over
    that sequence. *)
Lemma forEach_rule_on (micros : Z) (units : list time_unit) :
  forEach (map (fun u => (unit_suffix u, unit_micros u)) units)
          (try_suffix micros) None
  = rule_on units micros.
Proof.
  induction units as [|u units IH]; [reflexivity|].
  cbn [map forEach]. unfold try_suffix at 1.
  unfold rule_on. cbn [find]. fold (rule_on units micros).
  destruct (Z.eqb_spec (Z.rem micros (unit_micros u)) 0) as [Hrem|Hrem].
  - rewrite (while_loop_fuel 8 4 u) by (destruct u; cbn; lia).
    rewrite maxInterval_eq.
    destruct (fit_exact micros u Hrem) as [Hamt Hstop].
    destruct (fit 4 (Z.quot micros (unit_micros u)) u) as [amt u'].
    cbn [fst snd] in *.
    destruct (Z.leb_spec amt 99999999) as [Hfit|Hbig]; [reflexivity|].
    rewrite IH. apply rule_on_hopeless.
    destruct Hstop as [Hle | ->]; [lia|]. rewrite <- Hamt. assumption.
  - exact IH.
Qed.

(** C3 (as the code has it).  [microsToInterval] follows the rule: the
    suffixes are tried in the order H, M, S, m, u; the first whose
    denominator divides the input exactly is taken, and its amount is
    stepped up to coarser units, flooring, while it exceeds 99,999,999.
    In particular 1_000_000 gives "1S", 3600 * 10^6 gives "1H", 1 gives
    "1u", and 10^14 gives "1666666M": its 10^8 seconds step up once, to
    1,666,666 minutes, which fit. *)
Theorem microsToInterval_rule :
  (forall micros : Z, microsToInterval micros = interval_rule micros)
  /\ microsToInterval 1000000 = Ok (str "1S")
  /\ microsToInterval (3600 * 10 ^ 6) = Ok (str "1H")
  /\ microsToInterval (10 ^ 14) = Ok (str "1666666M")
  /\ microsToInterval 1 = Ok (str "1u").
Proof.
  split.
  - intro micros. unfold microsToInterval, interval_rule.
    rewrite microsBySuffix_units, forEach_rule_on. reflexivity.
  - repeat split; vm_compute; reflexivity.
Qed.

(** C3 as stated fails: 10^14 microseconds do not encode as "27H". *)
Lemma microsToInterval_1e14_not_27H :
  microsToInterval (10 ^ 14) <> Ok (str "27H").
Proof. vm_compute. discriminate. Qed.

Lemma is_suffix_cases (c : N) :
  is_suffix c = true <->
  c = 72%N \/ c = 77%N \/ c = 83%N \/ c = 109%N \/ c = 117%N \/ c = 110%N.
Proof.
  unfold is_suffix. cbn [str existsb N_of_ascii N.add N.mul].
  rewrite !orb_true_iff, !N.eqb_eq. cbn. intuition discriminate.
Qed.

Lemma suffix_not_digit (c : N) : is_suffix c = true -> is_digit c = false.
Proof.
  intro H. apply is_suffix_cases in H.
  destruct H as [-> | [-> | [-> | [-> | [-> | ->]]]]]; reflexivity.
Qed.

Lemma span_digits_spec (s : jsstring) : forall ds tl,
  span_digits s = (ds, tl) ->
  s = ds ++ tl /\ forallb is_digit ds = true
  /\ match tl with c :: _ => is_digit c = false | [] => True end.
Proof.
  induction s as [|c s IH]; intros ds tl H; cbn [span_digits] in H.
  - injection H as <- <-. repeat split.
  - destruct (is_digit c) eqn:Ec.
    + destruct (span_digits s) as [ds' tl'].
      injection H as <- <-.
      destruct (IH ds' tl' eq_refl) as [-> [Hds Htl]].
      cbn [forallb app]. rewrite Ec, Hds. repeat split. assumption.
    + injection H as <- <-. repeat split. assumption.
Qed.

Lemma span_digits_app (ds tl : jsstring) :
  forallb is_digit ds = true ->
  match tl with c :: _ => is_digit c = false | [] => True end ->
  span_digits (ds ++ tl) = (ds, tl).
Proof.
  intros Hds Htl. induction ds as [|d ds IH].
  - destruct tl as [|c tl]; [reflexivity|]. cbn [app span_digits].
    rewrite Htl. reflexivity.
  - cbn [forallb] in Hds. apply andb_true_iff in Hds as [Hd Hds].
    cbn [app span_digits]. rewrite Hd, (IH Hds). reflexivity.
Qed.

(** The matcher accepts exactly the strings of the grammar, and its two
    groups are the digits and the suffix. *)
Lemma match_intervalRx_grammar (s digits : jsstring) (suffix : N) :
  interval_grammar s digits suffix <->
  match_intervalRx s = Some (digits, [suffix]).
Proof.
  unfold interval_grammar, match_intervalRx. split.
  - intros [-> [Hne [Hds Hsfx]]].
    rewrite (span_digits_app digits [suffix] Hds (suffix_not_digit _ Hsfx)).
    destruct digits as [|d ds]; [contradiction|]. rewrite Hsfx. reflexivity.
  - destruct (span_digits s) as [ds tl] eqn:E.
    apply span_digits_spec in E as [-> [Hds _]].
    destruct ds as [|d ds]; [discriminate|].
    destruct tl as [|c [|c' tl]]; try discriminate.
    destruct (is_suffix c) eqn:Hc; [|discriminate].
    intro H. injection H as <- <-. repeat split; try assumption.
    discriminate.
Qed.

Lemma match_intervalRx_some (s a b : jsstring) :
  match_intervalRx s = Some (a, b) ->
  exists suffix, b = [suffix] /\ interval_grammar s a suffix.
Proof.
  intro H.
  assert (Hb : exists suffix, b = [suffix]).
  { unfold match_intervalRx in H.
    destruct (span_digits s) as [ds tl].
    destruct ds as [|d ds]; [discriminate|].
    destruct tl as [|c [|c' tl]]; try discriminate.
    destruct (is_suffix c); [|discriminate].
    injection H as <- <-. eexists. reflexivity. }
  destruct Hb as [suffix ->]. exists suffix. split; [reflexivity|].
  apply match_intervalRx_grammar. assumption.
Qed.

Lemma parseInt_digits_nonneg (digits : jsstring) :
  forallb is_digit digits = true -> 0 <= parseInt_digits digits.
Proof.
  unfold parseInt_digits.
  assert (H : forall acc, 0 <= acc -> forallb is_digit digits = true ->
                0 <= fold_left (fun a c => 10 * a + (Z.of_N c - 48)) digits acc).
  { induction digits as [|d ds IH]; intros acc Hacc Hds; [assumption|].
    cbn [forallb] in Hds. apply andb_true_iff in Hds as [Hd Hds].
    cbn [fold_left]. apply IH; [|assumption].
    unfold is_digit in Hd. apply andb_true_iff in Hd as [Hlo Hhi].
    apply N.leb_le in Hlo. lia. }
  apply H. lia.
Qed.

(** *** Doubles on integers *)

(** A safe integer is a double. *)
Lemma to_double_safe (z : Z) :
  z <= MAX_SAFE_INTEGER -> to_double z = Num z.
Proof.
  unfold MAX_SAFE_INTEGER, to_double. intro H.
  assert (E : (z <? 2 ^ 53) = true) by (apply Z.ltb_lt; lia).
  rewrite E. reflexivity.
Qed.

(** Rounding gives [Infinity] or a number that is not negative. *)
Lemma to_double_shape (z : Z) :
  0 <= z ->
  to_double z = Infinity \/ exists v, to_double z = Num v /\ 0 <= v.
Proof.
  intro Hz. unfold to_double.
  destruct (z <? 2 ^ 53); [right; exists z; split; [reflexivity | assumption]|].
  cbv zeta.
  match goal with
  | |- context [2 ^ 1024 <=? ?q * ?p] =>
      assert (Hq : 0 <= q); [|assert (Hp : 0 <= p) by (apply Z.pow_nonneg; lia);
        destruct (2 ^ 1024 <=? q * p);
        [left; reflexivity
        |right; eexists; split;
         [reflexivity | apply Z.mul_nonneg_nonneg; assumption]]]
  end.
  assert (H : 0 <= z / 2 ^ (Z.log2 z - 52))
    by (apply Z_div_nonneg_nonneg; [assumption | apply Z.pow_nonneg; lia]).
  repeat match goal with
         | |- context [if ?c then _ else _] => destruct c
         end; lia.
Qed.

(** A product of numbers that is a safe integer is exact. *)
Lemma number_mul_safe (x y : Z) :
  x * y <= MAX_SAFE_INTEGER -> number_mul (Num x) (Num y) = Num (x * y).
Proof. intro H. cbn [number_mul]. apply to_double_safe. assumption. Qed.

Lemma quotient_exponent_upper (p : Z) :
  0 < p <= MAX_SAFE_INTEGER -> quotient_exponent p 1000 <= 43.
Proof.
  unfold MAX_SAFE_INTEGER. intros [H0 H].
  assert (Hl : Z.log2 p < 53) by (apply Z.log2_lt_pow2; lia).
  unfold quotient_exponent. change (Z.log2 1000) with 9. cbv zeta.
  match goal with
  | |- context [if ?c then _ else _] => destruct c
  end; lia.
Qed.

(** Rounding [x / 1000] to a multiple of [1 / s] does not reach the next
    integer, for [s] a power of two from 512 on: the floor of the rounded
    quotient is the floor of the quotient. *)
Lemma round_then_floor (x s : Z) :
  0 <= x -> s = 512 \/ 1024 <= s ->
  (if 2 * ((x * s) mod 1000) <? 1000 then x * s / 1000
   else if 1000 <? 2 * ((x * s) mod 1000) then x * s / 1000 + 1
        else if Z.even (x * s / 1000) then x * s / 1000
             else x * s / 1000 + 1) / s
  = x / 1000.
Proof.
  intros Hx Hs.
  pose proof (Z.div_mod x 1000 ltac:(lia)) as Hxd.
  pose proof (Z.mod_pos_bound x 1000 ltac:(lia)) as Ht.
  assert (Hk : 0 <= x / 1000) by (apply Z.div_pos; lia).
  remember (x / 1000) as k eqn:Ek. remember (x mod 1000) as t eqn:Et.
  clear Ek Et.
  assert (Hs0 : 0 < s) by lia.
  replace (x * s) with (k * s * 1000 + t * s) by (rewrite Hxd; ring).
  rewrite Z_div_plus_full_l by lia.
  rewrite (Z.add_comm (k * s * 1000)), Z_mod_plus_full.
  pose proof (Z.div_mod (t * s) 1000 ltac:(lia)) as Htd.
  pose proof (Z.mod_pos_bound (t * s) 1000 ltac:(lia)) as Hr.
  assert (Hu : 0 <= t * s / 1000)
    by (apply Z.div_pos; [apply Z.mul_nonneg_nonneg|]; lia).
  remember (t * s / 1000) as u eqn:Eu. remember ((t * s) mod 1000) as r eqn:Er.
  clear Eu Er.
  assert (Hts : t * s <= 999 * s)
    by (apply Z.mul_le_mono_nonneg_r; lia).
  assert (Hfit : forall w, 0 <= w < s -> (k * s + w) / s = k).
  { intros w Hw. rewrite Z.add_comm, Z_div_plus_full by lia.
    rewrite Z.div_small by assumption. reflexivity. }
  destruct (2 * r <? 1000) eqn:E1; [apply Hfit; lia|].
  apply Z.ltb_ge in E1.
  assert (Hup : u + 1 < s).
  { destruct Hs as [-> | Hs]; lia. }
  destruct (1000 <? 2 * r);
    [|destruct (Z.even (k * s + u))];
    rewrite <- ?Z.add_assoc; apply Hfit; lia.
Qed.

(** [Math.floor(x / 1000)] on a safe integer is the integer quotient. *)
Lemma floor_div_double_safe (x : Z) :
  0 <= x <= MAX_SAFE_INTEGER -> floor_div_double x 1000 = x / 1000.
Proof.
  intros [H0 H]. unfold floor_div_double.
  destruct (x =? 0) eqn:E0;
    [apply Z.eqb_eq in E0; subst x; reflexivity|].
  apply Z.eqb_neq in E0.
  pose proof (quotient_exponent_upper x ltac:(lia)) as Hq.
  cbv zeta.
  remember (quotient_exponent x 1000 - 52) as e eqn:Ee.
  assert (He : (0 <=? e) = false) by (apply Z.leb_gt; lia).
  rewrite He.
  apply round_then_floor; [assumption|].
  destruct (Z.eq_dec e (-9)) as [-> | Hne]; [left; reflexivity|].
  right. change 1024 with (2 ^ 10). apply Z.pow_le_mono_r; lia.
Qed.

Lemma floor_div_double_nonneg (p q : Z) :
  0 <= p -> 0 <= q -> 0 <= floor_div_double p q.
Proof.
  intros Hp Hq. unfold floor_div_double.
  destruct (p =? 0); [lia|]. cbv zeta.
  remember (quotient_exponent p q - 52) as e eqn:Ee. clear Ee.
  assert (Hpow : forall n, 0 <= 2 ^ n) by (intro n; apply Z.pow_nonneg; lia).
  destruct (0 <=? e).
  - pose proof (Hpow e).
    assert (Hm : 0 <= p / (q * 2 ^ e))
      by (apply Z_div_nonneg_nonneg; [|apply Z.mul_nonneg_nonneg]; lia).
    apply Z.mul_nonneg_nonneg; [|lia].
    repeat match goal with
           | |- context [if ?c then _ else _] => destruct c
           end; lia.
  - pose proof (Hpow (- e)).
    assert (Hm : 0 <= p * 2 ^ (- e) / q)
      by (apply Z_div_nonneg_nonneg; [apply Z.mul_nonneg_nonneg|]; lia).
    apply Z_div_nonneg_nonneg; [|lia].
    repeat match goal with
           | |- context [if ?c then _ else _] => destruct c
           end; lia.
Qed.

(** *** Decoding *)

Lemma intervalToMicros_matched (s digits : jsstring) (suffix : N) :
  match_intervalRx s = Some (digits, [suffix]) ->
  intervalToMicros s = Ok (interval_number digits suffix).
Proof.
  intro H. unfold intervalToMicros. rewrite H.
  apply match_intervalRx_grammar in H as [_ [_ [_ Hsfx]]].
  apply is_suffix_cases in Hsfx. unfold interval_number.
  destruct Hsfx as [-> | [-> | [-> | [-> | [-> | ->]]]]];
    cbn -[number_mul Math_floor_div parseInt]; reflexivity.
Qed.

(** Within the safe integers the numbers of JavaScript compute the value
    of the integers. *)
Lemma interval_number_safe (digits : jsstring) (suffix : N) :
  forallb is_digit digits = true ->
  parseInt_digits digits <= MAX_SAFE_INTEGER ->
  interval_value digits suffix <= MAX_SAFE_INTEGER ->
  interval_number digits suffix = Num (interval_value digits suffix).
Proof.
  intros Hds Hp Hv. pose proof (parseInt_digits_nonneg digits Hds) as H0.
  unfold interval_number, interval_value in *. unfold parseInt.
  rewrite (to_double_safe _ Hp).
  destruct (suffix =? 110)%N.
  - cbn [Math_floor_div]. rewrite floor_div_double_safe by lia.
    change (weight 117) with 1.
    rewrite number_mul_safe; rewrite Z.mul_1_l; [reflexivity | assumption].
  - apply number_mul_safe. assumption.
Qed.

(** The decoded number is never [NaN] and never negative. *)
Lemma interval_number_shape (digits : jsstring) (suffix : N) :
  forallb is_digit digits = true -> is_suffix suffix = true ->
  interval_number digits suffix = Infinity
  \/ exists z, interval_number digits suffix = Num z /\ 0 <= z.
Proof.
  intros Hds Hsfx. pose proof (parseInt_digits_nonneg digits Hds) as H0.
  unfold interval_number, parseInt.
  destruct (to_double_shape _ H0) as [-> | [v [-> Hv]]].
  - apply is_suffix_cases in Hsfx.
    destruct Hsfx as [-> | [-> | [-> | [-> | [-> | ->]]]]];
      left; reflexivity.
  - destruct (suffix =? 110)%N.
    + cbn [Math_floor_div number_mul]. apply to_double_shape.
      change (weight 117) with 1. rewrite Z.mul_1_l.
      apply floor_div_double_nonneg; lia.
    + cbn [number_mul]. apply to_double_shape.
      apply Z.mul_nonneg_nonneg; [|assumption].
      apply is_suffix_cases in Hsfx.
      destruct Hsfx as [-> | [-> | [-> | [-> | [-> | ->]]]]];
        cbn; lia.
Qed.






(** ** Metadata values and the registry *)

Lemma isAscii_test_ascii (v : jsstring) :
  v <> [] -> Forall ascii_code v -> isAscii_test v = true.
Proof.
  intros Hne Hall. destruct v as [|c v]; [contradiction|].
  unfold isAscii_test. apply forallb_forall. intros x Hx.
  rewrite Forall_forall in Hall. apply N.leb_le. exact (Hall x Hx).
Qed.

(** A string of one ASCII character or more is returned as it is, under
    its own key. *)
Lemma removeBinValues_ascii_nonempty (key v : jsstring) :
  v <> [] -> Forall ascii_code v ->
  removeBinValues key (VScalar (SString v)) = (key, VScalar (SString v)).
Proof.
  intros Hne Hall. unfold removeBinValues.
  rewrite (isAscii_test_ascii v Hne Hall). reflexivity.
Qed.

(** C8 (the code departs from it).  The empty string has only ASCII
    characters, and [removeBinValues] does not return it unchanged: the
    key comes back with the suffix [-bin]. *)
Theorem removeBinValues_ascii_empty :
  Forall ascii_code []
  /\ removeBinValues (str "x-auth") (VScalar (SString []))
     = (str "x-auth-bin", VScalar (SString []))
  /\ removeBinValues (str "x-auth") (VScalar (SString []))
     <> (str "x-auth", VScalar (SString [])).
Proof.
  split; [constructor|]. split; [reflexivity|]. discriminate.
Qed.

(** C10.  On the empty string [removeBinValues] returns the key with the
    suffix [-bin] and the empty string: [isAscii] asks for one character
    or more, so the empty string counts as not ASCII, and its base64
    encoding is the empty string. *)
Theorem removeBinValues_empty_string (key : jsstring) :
  isAscii_test [] = false
  /\ toString_base64 (Buffer_from_string []) = []
  /\ removeBinValues key (VScalar (SString []))
     = (key ++ str "-bin", VScalar (SString [])).
Proof. repeat split. Qed.

Section RegistryProofs.
Context {Obj Handler : Type}.
Implicit Types (app : App.t Obj Handler) (svc : App.ServiceDescriptor Obj)
  (rs : list (string * App.Entry Obj Handler)) (r k : string) (h : Handler).

Lemma mem_In (x : string) (l : list string) : App.mem x l = true <-> In x l.
Proof.
  unfold App.mem. rewrite existsb_exists. split.
  - intros [y [Hy E]]. apply String.eqb_eq in E. subst. assumption.
  - intro H. exists x. split; [assumption | apply String.eqb_refl].
Qed.

Lemma distinct_NoDup (l : list string) : App.distinct l = true -> NoDup l.
Proof.
  induction l as [|x l IH]; intro H; [constructor|].
  cbn [App.distinct] in H. apply andb_true_iff in H as [Hx Hl].
  constructor; [|apply IH; assumption].
  intro Hin. apply mem_In in Hin. rewrite Hin in Hx. discriminate.
Qed.

Lemma append_inj_l (p a b : string) :
  String.append p a = String.append p b -> a = b.
Proof.
  induction p as [|c p IH]; cbn; intro H; [assumption|].
  injection H as H. apply IH. assumption.
Qed.

Lemma route_inj (s m1 m2 : string) :
  App.route s m1 = App.route s m2 -> m1 = m2.
Proof.
  unfold App.route. intro H.
  do 3 apply append_inj_l in H. assumption.
Qed.

Lemma NoDup_map_route (s : string) (names : list string) :
  NoDup names -> NoDup (map (App.route s) names).
Proof.
  induction 1 as [|x l Hx _ IH]; cbn [map]; constructor; [|assumption].
  intro Hin. apply in_map_iff in Hin as [y [E Hy]].
  apply route_inj in E. subst y. contradiction.
Qed.

(** The routes of a service built by [Service] are pairwise distinct. *)
Lemma service_entries_NoDup svc :
  App.Service (App.service_name svc) (App.service_methods svc) = Ok svc ->
  NoDup (map fst (App.service_entries (Handler:=Handler) svc)).
Proof.
  unfold App.Service. intro H.
  destruct (App.distinct (map App.method_name (App.service_methods svc)))
    eqn:E; [|discriminate].
  apply distinct_NoDup in E. unfold App.service_entries.
  rewrite map_map. cbn [fst].
  rewrite <- (map_map App.method_name (App.route (App.service_name svc))).
  apply NoDup_map_route. assumption.
Qed.

Lemma addService_routes app svc app' :
  App.addService app svc = Ok app' ->
  App.routes app' = App.routes app ++ App.service_entries svc
  /\ (forall r, In r (map fst (App.service_entries (Handler:=Handler) svc)) ->
                ~ In r (map fst (App.routes app))).
Proof.
  unfold App.addService. intro H.
  destruct (App.mem (App.service_name svc) (App.services app));
    [discriminate|].
  destruct (existsb _ _) eqn:E; [discriminate|].
  injection H as <-. cbn [App.routes]. split; [reflexivity|].
  intros r Hr Hin.
  assert (Hex : existsb (fun r0 => App.mem r0 (map fst (App.routes app)))
                  (map fst (App.service_entries (Handler:=Handler) svc))
                = true).
  { apply existsb_exists. exists r. split; [assumption|].
    apply mem_In. assumption. }
  rewrite Hex in E. discriminate.
Qed.

Lemma service_entries_no_handler svc :
  Forall (fun re => App.no_handler re = true)
         (App.service_entries (Handler:=Handler) svc).
Proof.
  unfold App.service_entries. apply Forall_forall. intros re Hin.
  apply in_map_iff in Hin as [m [<- _]]. reflexivity.
Qed.

(** What the registry holds once the services are added: their routes in
    declared order, pairwise distinct and without handlers. *)
Lemma addServices_routes (svcs : list (App.ServiceDescriptor Obj)) :
  forall app app',
  Forall (fun svc =>
            App.Service (App.service_name svc) (App.service_methods svc)
            = Ok svc) svcs ->
  App.addServices app svcs = Ok app' ->
  NoDup (map fst (App.routes app)) ->
  Forall (fun re => App.no_handler re = true) (App.routes app) ->
  map fst (App.routes app')
  = map fst (App.routes app) ++ App.declared_routes (Handler:=Handler) svcs
  /\ NoDup (map fst (App.routes app'))
  /\ Forall (fun re => App.no_handler re = true) (App.routes app').
Proof.
  induction svcs as [|svc svcs IH]; intros app app' Hvalid Hadd Hnd Hnone.
  - cbn in Hadd. injection Hadd as <-. cbn. rewrite app_nil_r. auto.
  - cbn [App.addServices] in Hadd.
    destruct (App.addService app svc) as [app1|err] eqn:E1;
      [|discriminate].
    cbn [bind] in Hadd.
    inversion Hvalid as [|svc' svcs' Hsvc Hsvcs]; subst.
    apply addService_routes in E1 as [Hroutes Hfresh].
    destruct (IH app1 app' Hsvcs Hadd) as [Hkeys [Hnd' Hnone']].
    + rewrite Hroutes, map_app. apply NoDup_app; repeat split.
      * assumption.
      * apply service_entries_NoDup. assumption.
      * intros r Hin1 Hin2. exact (Hfresh r Hin2 Hin1).
    + rewrite Hroutes. apply Forall_app. split;
        [assumption | apply service_entries_no_handler].
    + split; [|split; assumption].
      rewrite Hkeys, Hroutes, map_app, <- app_assoc. reflexivity.
Qed.

Lemma missing_unfold app :
  App.missingRoutes app = map fst (filter App.no_handler (App.routes app)).
Proof. reflexivity. Qed.

Lemma filter_all_true {A : Type} (p : A -> bool) (l : list A) :
  Forall (fun x => p x = true) l -> filter p l = l.
Proof.
  induction 1 as [|x l Hx _ IH]; [reflexivity|].
  cbn [filter]. rewrite Hx, IH. reflexivity.
Qed.

Lemma filter_keys_other rs r :
  ~ In r (map fst rs) ->
  filter (fun k => negb (String.eqb k r)) (map fst (filter App.no_handler rs))
  = map fst (filter App.no_handler rs).
Proof.
  intro Hnot. apply filter_all_true. apply Forall_forall. intros k Hk.
  apply negb_true_iff, String.eqb_neq. intros ->. apply Hnot.
  apply in_map_iff in Hk as [re [<- Hre]]. apply filter_In in Hre as [Hre _].
  apply in_map. assumption.
Qed.

(** [register] takes the route, and only it, out of the missing ones. *)
Lemma set_handler_missing rs : forall r h rs',
  NoDup (map fst rs) ->
  App.set_handler rs r h = Ok rs' ->
  map fst rs' = map fst rs
  /\ map fst (filter App.no_handler rs')
     = filter (fun k => negb (String.eqb k r))
         (map fst (filter App.no_handler rs)).
Proof.
  induction rs as [|[k e] rs IH]; intros r h rs' Hnd Hset;
    cbn [App.set_handler] in Hset; [discriminate|].
  inversion Hnd as [|k' ks Hk Hks]; subst.
  destruct (String.eqb_spec k r) as [->|Hne].
  - destruct (App.entry_handler e) eqn:Eh; [discriminate|].
    injection Hset as <-. split; [reflexivity|].
    cbn [filter].
    replace (App.no_handler (r, e)) with true
      by (unfold App.no_handler; cbn [snd]; rewrite Eh; reflexivity).
    change (App.no_handler (r, App.mkEntry (App.entry_marshal e)
                             (App.entry_unmarshal e) (Some h))) with false.
    cbn [map fst filter].
    rewrite String.eqb_refl. cbn [negb].
    symmetry. apply filter_keys_other. assumption.
  - destruct (App.set_handler rs r h) as [rest'|err] eqn:E; [|discriminate].
    cbn [bind] in Hset. injection Hset as <-.
    destruct (IH r h rest' Hks E) as [Hkeys Hmiss].
    split; [cbn [map fst]; rewrite Hkeys; reflexivity|].
    cbn [filter]. destruct (App.no_handler (k, e)); [|assumption].
    cbn [map fst filter].
    apply String.eqb_neq in Hne. rewrite Hne. cbn [negb].
    rewrite Hmiss. reflexivity.
Qed.

Lemma filter_filter {A : Type} (p q : A -> bool) (l : list A) :
  filter p (filter q l) = filter (fun x => q x && p x) l.
Proof.
  induction l as [|x l IH]; [reflexivity|].
  cbn [filter]. destruct (q x); cbn [filter andb]; rewrite IH; reflexivity.
Qed.

Lemma registerAll_missing (regs : list (string * Handler)) : forall app app',
  NoDup (map fst (App.routes app)) ->
  App.registerAll app regs = Ok app' ->
  App.missingRoutes app'
  = filter (fun k => negb (App.mem k (map fst regs))) (App.missingRoutes app).
Proof.
  induction regs as [|[r h] regs IH]; intros app app' Hnd Hreg.
  - cbn in Hreg. injection Hreg as <-. cbn [map App.mem existsb negb].
    symmetry. apply filter_all_true. apply Forall_forall. reflexivity.
  - cbn [App.registerAll] in Hreg. unfold App.register in Hreg.
    destruct (App.set_handler (App.routes app) r h) as [rs'|err] eqn:E;
      [|discriminate].
    cbn [bind] in Hreg.
    destruct (set_handler_missing _ _ _ _ Hnd E) as [Hkeys Hmiss].
    rewrite (IH (App.mkApp (App.services app) rs') app');
      [|cbn [App.routes]; rewrite Hkeys; assumption|assumption].
    rewrite !missing_unfold. cbn [App.routes]. rewrite Hmiss, filter_filter.
    apply filter_ext. intro k. cbn [map fst App.mem existsb].
    rewrite negb_orb. reflexivity.
Qed.

Lemma filter_nil_iff {A : Type} (p : A -> bool) (l : list A) :
  filter p l = [] <-> forall x, In x l -> p x = false.
Proof.
  induction l as [|x l IH]; cbn [filter].
  - split; [intros _ y [] | reflexivity].
  - destruct (p x) eqn:E; split.
    + discriminate.
    + intro H. rewrite (H x (or_introl eq_refl)) in E. discriminate.
    + intros H y [<-|Hy]; [assumption | apply IH; assumption].
    + intro H. apply IH. intros y Hy. apply H. right. assumption.
Qed.

End RegistryProofs.

(** C9.  Registry completeness: once the services [svcs] are added to a
    new registry and handlers are registered for the routes of [regs],
    [missingRoutes()] is the sequence of declared routes (service after
    service, method after method) without those that got a handler, and
    [isComplete()] holds if and only if every declared route got one. *)
Theorem registry_completeness (Obj Handler : Type)
    (svcs : list (App.ServiceDescriptor Obj))
    (regs : list (string * Handler)) (app1 app2 : App.t Obj Handler) :
  Forall (fun svc =>
            App.Service (App.service_name svc) (App.service_methods svc)
            = Ok svc) svcs ->
  App.RpcApp svcs = Ok app1 ->
  App.registerAll app1 regs = Ok app2 ->
  App.missingRoutes app2
  = filter (fun r => negb (App.mem r (map fst regs)))
      (App.declared_routes (Handler:=Handler) svcs)
  /\ (App.isComplete app2 = true <->
      forall r, In r (App.declared_routes (Handler:=Handler) svcs) ->
                In r (map fst regs)).
Proof.
  intros Hvalid Hadd Hreg.
  destruct (addServices_routes svcs App.empty app1 Hvalid Hadd)
    as [Hkeys [Hnd Hnone]]; [constructor | constructor |].
  cbn [App.routes App.empty map app] in Hkeys.
  assert (Hmiss1 : App.missingRoutes app1
                   = App.declared_routes (Handler:=Handler) svcs).
  { rewrite missing_unfold, (filter_all_true _ _ Hnone). assumption. }
  pose proof (registerAll_missing regs app1 app2 Hnd Hreg) as Hmiss.
  rewrite Hmiss1 in Hmiss. split; [assumption|].
  unfold App.isComplete. rewrite Hmiss.
  destruct (filter _ _) eqn:E.
  - split; [|reflexivity]. intros _ r Hr.
    pose proof (proj1 (filter_nil_iff _ _) E r Hr) as Hf.
    apply negb_false_iff in Hf. apply mem_In. assumption.
  - split; [discriminate|]. intro Hcover. exfalso.
    assert (Hin : In s (filter (fun r => negb (App.mem r (map fst regs)))
                          (App.declared_routes (Handler:=Handler) svcs)))
      by (rewrite E; left; reflexivity).
    apply filter_In in Hin as [Hs Hf]. apply negb_true_iff in Hf.
    apply Hcover, mem_In in Hs. rewrite Hs in Hf. discriminate.
Qed.

Lemma registry_completeness_witness :
  exists app1 app2 : App.t unit unit,
    App.RpcApp [App.testSvc (fun _ => Ok []) (fun b => Ok (VBuffer b));
                App.basicSvc] = Ok app1
    /\ App.registerAll app1 [("/basic/noop"%string, tt)] = Ok app2
    /\ App.missingRoutes app2 = ["/test/do_reverse"%string]
    /\ App.isComplete app2 = false.
Proof.
  assert (Hvalid :
    Forall (fun svc : App.ServiceDescriptor unit =>
              App.Service (App.service_name svc) (App.service_methods svc)
              = Ok svc)
           [App.testSvc (fun _ => Ok []) (fun b => Ok (VBuffer b));
            App.basicSvc])
    by (repeat constructor).
  eexists. eexists.
  split; [reflexivity|]. split; [reflexivity|].
  split.
  - exact (proj1 (registry_completeness unit unit _
                    [("/basic/noop"%string, tt)] _ _ Hvalid eq_refl eq_refl)).
  - reflexivity.
Defined.

(** Scenario S6: an ASCII string is kept, a buffer and a string with a
    character outside ASCII are sent as base64 under the key with
    [-bin]. *)
Example metadata_scenario_S6 :
  removeBinValues (str "x-auth") (VScalar (SString (str "bearer abc")))
  = (str "x-auth", VScalar (SString (str "bearer abc")))
  /\ removeBinValues (str "token") (VScalar (SBuffer [x00; x01; x02]))
     = (str "token-bin", VScalar (SString (str "AAEC")))
  /\ removeBinValues (str "greet")
       (VScalar (SString [104; 233; 108; 108; 111]%N))
     = (str "greet-bin", VScalar (SString (str "aMOpbGxv"))).
Proof. repeat split. Qed.

(** The registry of the [RpcApp] test suite: the callbacks of the routes, and
    completeness after each registration. *)
Example registry_scenario_S7 :
  forall (reverser : jsval unit -> result Buffer)
         (irreverser : Buffer -> result (jsval unit)),
  exists app0 app1 app2 : App.t unit unit,
    App.RpcApp [App.testSvc reverser irreverser; App.basicSvc] = Ok app0
    /\ App.marshaller app0 "/basic/noop" = None
    /\ App.marshaller app0 "/test/do_reverse" = Some reverser
    /\ App.unmarshaller app0 "/test/do_reverse" = Some irreverser
    /\ App.marshaller app0 "this-does-no-exist" = None
    /\ App.missingRoutes app0
       = ["/test/do_reverse"%string; "/basic/noop"%string]
    /\ App.hasRoute app0 "/basic/noop" = false
    /\ App.register app0 "/basic/noop" tt = Ok app1
    /\ App.hasRoute app1 "/basic/noop" = true
    /\ App.isComplete app1 = false
    /\ App.register app1 "/test/do_reverse" tt = Ok app2
    /\ App.isComplete app2 = true
    /\ (exists err, App.register app1 "/basic/noop" tt = Throw err)
    /\ (exists err, App.register app0 "this-does-not-required" tt = Throw err)
    /\ (exists err,
          App.addService app0 (App.testSvc reverser irreverser) = Throw err).
Proof.
  intros reverser irreverser. do 3 eexists.
  repeat (split; [reflexivity|]).
  repeat split; eexists; reflexivity.
Qed.

(** * Further properties *)

(** ** More on the frame codec *)

Lemma encodeMessage_marshalled {Obj : Type} (opts : Opts Obj)
    (message : jsval Obj) :
  encodeMessage message opts
  = (b <- marshalled opts message ;; Ok (pipe_to_header b)).
Proof.
  unfold encodeMessage, marshalled.
  destruct (marshal opts) as [f|].
  - destruct (f message); reflexivity.
  - destruct message; reflexivity.
Qed.

Lemma decodeMessage_frame_of {Obj : Type} (opts : Opts Obj) (b : Buffer) :
  len b < 2 ^ 32 ->
  decodeMessage (pipe_to_header b) opts = deliver opts b.
Proof.
  intro H. rewrite pipe_to_header_eq, decodeMessage_frame, be32_of_Z.
  rewrite Z.mod_small by (pose proof (len_nonneg b); lia).
  rewrite (Z.eqb_refl (len b)), andb_false_r. reflexivity.
Qed.

Lemma wf_lt (b : Buffer) : Buf.wf b -> len b < 2 ^ 32.
Proof. unfold Buf.wf, kMaxLength. lia. Qed.

(** X1.  With callbacks, decoding what was encoded hands the marshalled
    bytes to the unmarshaller: the result is [unmarshal(marshal(x))],
    whatever the two callbacks are; and when the marshaller throws,
    [encodeMessage] returns its error and no frame. *)
Theorem frame_round_trip_callbacks (Obj : Type) (opts : Opts Obj)
    (message : jsval Obj) :
  (forall b : Buffer,
      marshalled opts message = Ok b -> Buf.wf b ->
      (encoded <- encodeMessage message opts ;; decodeMessage encoded opts)
      = deliver opts b)
  /\ (forall err : JsError,
        marshalled opts message = Throw err ->
        encodeMessage message opts = Throw err).
Proof.
  split.
  - intros b Hb Hwf. rewrite encodeMessage_marshalled, Hb. cbn [bind].
    apply decodeMessage_frame_of, wf_lt. assumption.
  - intros err He. rewrite encodeMessage_marshalled, He. reflexivity.
Qed.

Lemma frame_round_trip_callbacks_witness :
  marshalled (mkOpts (Obj:=unit) (Some (fun _ => Ok [x68; x69]))
                (Some (fun b => Ok (VBuffer (rev b))))) (VObject tt)
  = Ok [x68; x69]
  /\ Buf.wf [x68; x69]
  /\ (encoded <- encodeMessage (VObject tt)
                   (mkOpts (Obj:=unit) (Some (fun _ => Ok [x68; x69]))
                      (Some (fun b => Ok (VBuffer (rev b))))) ;;
      decodeMessage encoded
        (mkOpts (Obj:=unit) (Some (fun _ => Ok [x68; x69]))
           (Some (fun b => Ok (VBuffer (rev b))))))
     = Ok (VBuffer [x69; x68]).
Proof.
  assert (H : Buf.wf [x68; x69]) by (vm_compute; discriminate).
  split; [reflexivity|]. split; [exact H|].
  exact (proj1 (frame_round_trip_callbacks unit
                  (mkOpts (Some (fun _ => Ok [x68; x69]))
                          (Some (fun b => Ok (VBuffer (rev b)))))
                  (VObject tt)) [x68; x69] eq_refl H).
Defined.

(** The shape of a buffer that [decodeMessage] accepts. *)
Lemma decodeMessage_ok_shape (Obj : Type) (buf : Buffer) (v : jsval Obj) :
  decodeMessage buf noOpts = Ok v ->
  exists c b1 b2 b3 b4 payload,
    buf = c :: b1 :: b2 :: b3 :: b4 :: payload
    /\ v = VBuffer payload
    /\ (c <> x00 \/ be32 b1 b2 b3 b4 = len payload).
Proof.
  intro H.
  destruct buf as [|c [|b1 [|b2 [|b3 [|b4 payload]]]]];
    try (rewrite decodeMessage_short in H
           by (cbn; lia); discriminate).
  rewrite decodeMessage_frame in H.
  exists c, b1, b2, b3, b4, payload. split; [reflexivity|].
  destruct (Z.eqb_spec (byte_to_Z c) 0) as [Ec|Ec];
    destruct (Z.eqb_spec (len payload) (be32 b1 b2 b3 b4)) as [El|El];
    cbn [andb negb] in H; try discriminate;
    cbn in H; injection H as <-; split; try reflexivity.
  - right. symmetry. assumption.
  - left. intros ->. apply Ec. reflexivity.
  - left. intros ->. apply Ec. reflexivity.
Qed.

(** X2.  What [decodeMessage] accepts: without an unmarshaller it succeeds
    exactly on the buffers that have the five header bytes and either a
    compression byte that is not 0 or a length field equal to the number
    of bytes after the header; the result is those bytes. *)
Theorem decodeMessage_accepts (Obj : Type) (buf : Buffer) (v : jsval Obj) :
  decodeMessage buf noOpts = Ok v <->
  exists c b1 b2 b3 b4 payload,
    buf = c :: b1 :: b2 :: b3 :: b4 :: payload
    /\ v = VBuffer payload
    /\ (c <> x00 \/ be32 b1 b2 b3 b4 = len payload).
Proof.
  split; [apply decodeMessage_ok_shape|].
  intros [c [b1 [b2 [b3 [b4 [payload [-> [-> Hok]]]]]]]].
  rewrite decodeMessage_frame.
  destruct Hok as [Hc | Hl].
  - destruct (Z.eqb_spec (byte_to_Z c) 0) as [Ec|Ec]; [|reflexivity].
    apply byte_to_Z_zero in Ec. contradiction.
  - rewrite Hl, Z.eqb_refl, andb_false_r. reflexivity.
Qed.

Lemma byte_of_Z_mod (z : Z) : byte_of_Z (z mod 256) = byte_of_Z z.
Proof. unfold byte_of_Z. rewrite Z.mod_mod by lia. reflexivity. Qed.

Lemma byte_of_Z_eq (z : Z) (b : byte) :
  z mod 256 = byte_to_Z b -> byte_of_Z z = b.
Proof.
  intro H. rewrite <- byte_of_Z_mod, H. apply byte_of_to_Z.
Qed.

(** The four bytes [writeUInt32BE] stores for the number four bytes
    spell are those bytes. *)
Lemma u32_bytes_of_be32 (b1 b2 b3 b4 : byte) :
  byte_of_Z (Z.shiftr (be32 b1 b2 b3 b4) 24) = b1
  /\ byte_of_Z (Z.shiftr (be32 b1 b2 b3 b4) 16) = b2
  /\ byte_of_Z (Z.shiftr (be32 b1 b2 b3 b4) 8) = b3
  /\ byte_of_Z (be32 b1 b2 b3 b4) = b4.
Proof.
  pose proof (byte_to_Z_range b1). pose proof (byte_to_Z_range b2).
  pose proof (byte_to_Z_range b3). pose proof (byte_to_Z_range b4).
  repeat split; apply byte_of_Z_eq; rewrite ?Z.shiftr_div_pow2 by lia;
    unfold be32;
    change (2 ^ 24) with 16777216; change (2 ^ 16) with 65536;
    change (2 ^ 8) with 256;
    Z.to_euclidean_division_equations; lia.
Qed.

(** X3.  The other round trip: a buffer that [decodeMessage] accepts and
    whose compression byte is 0 is the encoding of its payload, so
    encoding what was decoded gives the buffer back. *)
Theorem decode_then_encode (Obj : Type) (buf payload : Buffer) :
  decodeMessage (Obj:=Obj) buf noOpts = Ok (VBuffer payload) ->
  readUInt8 buf COMPRESSION_INDEX = 0 ->
  encodeMessage (Obj:=Obj) (VBuffer payload) noOpts = Ok buf.
Proof.
  intros Hdec Hc.
  apply decodeMessage_ok_shape in Hdec
    as [c [b1 [b2 [b3 [b4 [p [-> [Hv Hok]]]]]]]].
  injection Hv as ->.
  unfold readUInt8, COMPRESSION_INDEX in Hc. cbn [nth] in Hc.
  apply byte_to_Z_zero in Hc. subst c.
  destruct Hok as [Hc | Hl]; [contradiction|].
  rewrite encodeMessage_plain, pipe_to_header_eq, <- Hl.
  destruct (u32_bytes_of_be32 b1 b2 b3 b4) as [-> [-> [-> ->]]].
  reflexivity.
Qed.

Lemma decode_then_encode_witness :
  decodeMessage (Obj:=unit) [x00; x00; x00; x00; x02; x42; x43] noOpts
  = Ok (VBuffer [x42; x43])
  /\ encodeMessage (Obj:=unit) (VBuffer [x42; x43]) noOpts
     = Ok [x00; x00; x00; x00; x02; x42; x43].
Proof.
  split; [reflexivity|].
  exact (decode_then_encode unit [x00; x00; x00; x00; x02; x42; x43]
           [x42; x43] eq_refl eq_refl).
Defined.

Lemma write_all_chunks (chunks : list Buffer) : forall this,
  MsgHeaderStream.size this = len (Buf.concat (MsgHeaderStream.body this)) ->
  MsgHeaderStream.size (fold_left MsgHeaderStream._write chunks this)
  = len (Buf.concat
           (MsgHeaderStream.body
              (fold_left MsgHeaderStream._write chunks this)))
  /\ Buf.concat
       (MsgHeaderStream.body (fold_left MsgHeaderStream._write chunks this))
     = Buf.concat (MsgHeaderStream.body this) ++ Buf.concat chunks.
Proof.
  induction chunks as [|chunk chunks IH]; intros this Hinv.
  - cbn [fold_left]. split; [assumption|].
    unfold Buf.concat at 3. cbn [List.concat]. rewrite app_nil_r. reflexivity.
  - cbn [fold_left].
    destruct (IH (MsgHeaderStream._write this chunk)) as [Hsize Hbody].
    + unfold MsgHeaderStream._write. cbn [MsgHeaderStream.size
        MsgHeaderStream.body]. unfold Buf.concat in *.
      rewrite concat_app, len_app, Hinv. cbn [List.concat].
      rewrite app_nil_r. reflexivity.
    + split; [assumption|]. rewrite Hbody.
      unfold MsgHeaderStream._write. cbn [MsgHeaderStream.body].
      unfold Buf.concat. rewrite concat_app. cbn [List.concat].
      rewrite app_nil_r, <- app_assoc. reflexivity.
Qed.

(** X4.  [MsgHeaderStream] counts what it is given: however the message
    reaches it, in one chunk or in many, [size] is the number of bytes
    of the body and [getBody] is the frame of the whole message. *)
Theorem getBody_any_chunks (chunks : list Buffer) :
  MsgHeaderStream.size
    (fold_left MsgHeaderStream._write chunks MsgHeaderStream.new)
  = len (Buf.concat chunks)
  /\ MsgHeaderStream.getBody
       (fold_left MsgHeaderStream._write chunks MsgHeaderStream.new)
     = pipe_to_header (Buf.concat chunks).
Proof.
  destruct (write_all_chunks chunks MsgHeaderStream.new eq_refl)
    as [Hsize Hbody].
  cbn [MsgHeaderStream.new MsgHeaderStream.body Buf.concat List.concat app]
    in Hbody.
  rewrite Hsize. fold (Buf.concat chunks) in Hbody.
  split; [rewrite Hbody; reflexivity|].
  rewrite pipe_to_header_eq.
  unfold MsgHeaderStream.getBody, MsgHeaderStream.header_in, writeUInt32BE,
    writeUInt8, alloc.
  cbn [repeat set Nat.add]. rewrite Hsize.
  change (Buf.concat (?h :: ?b)) with (h ++ Buf.concat b).
  rewrite Hbody. reflexivity.
Qed.

(** ** More on the decoding stream *)

Section StreamingWithCallbacks.
Context {Obj : Type}.
Implicit Types (this : DecodingStream.t Obj) (m chunk : Buffer).

(** [_transform] in terms of what the stream holds, with or without an
    unmarshaller. *)
Lemma transform_on_held_any this chunk :
  DecodingStream._transform this chunk
  = let buffer := held this ++ chunk in
    if len buffer <? MINIMUM_ENCODED_LENGTH then
      Ok (DecodingStream.mk (Some buffer) (DecodingStream._unmarshal this), [])
    else if len buffer
            <? readUInt32BE buffer LENGTH_INDEX + MINIMUM_ENCODED_LENGTH then
      Ok (DecodingStream.mk (Some buffer) (DecodingStream._unmarshal this), [])
    else
      pushed <- deliver (opts_of this)
                  (slice buffer MINIMUM_ENCODED_LENGTH
                     (readUInt32BE buffer LENGTH_INDEX
                      + MINIMUM_ENCODED_LENGTH)) ;;
      Ok (DecodingStream.mk
            (Some (slice_from buffer
                     (readUInt32BE buffer LENGTH_INDEX
                      + MINIMUM_ENCODED_LENGTH)))
            (DecodingStream._unmarshal this),
          [pushed]).
Proof.
  destruct this as [[b|] u]; unfold DecodingStream._transform, held, deliver,
    opts_of; cbn [DecodingStream._buffer DecodingStream._unmarshal Buf.concat
                  List.concat app unmarshal]; rewrite ?app_nil_r; reflexivity.
Qed.

Lemma transform_keeps_prefix_any this chunk m rest :
  len m < 2 ^ 32 ->
  (held this ++ chunk) ++ rest = pipe_to_header m -> rest <> [] ->
  DecodingStream._transform this chunk
  = Ok (DecodingStream.mk (Some (held this ++ chunk))
          (DecodingStream._unmarshal this), []).
Proof.
  intros Hm Hsplit Hrest.
  assert (Hlen : len (held this ++ chunk) < 5 + len m).
  { rewrite <- pipe_to_header_len, <- Hsplit, !len_app.
    destruct rest; [contradiction|]. rewrite len_cons.
    pose proof (len_nonneg rest). lia. }
  rewrite transform_on_held_any. cbv zeta.
  destruct (Z.ltb_spec (len (held this ++ chunk)) MINIMUM_ENCODED_LENGTH)
    as [_|Hge]; [reflexivity|].
  rewrite pipe_to_header_eq in Hsplit.
  destruct (held this ++ chunk) as [|c [|b1 [|b2 [|b3 [|b4 tl]]]]] eqn:E;
    try (unfold MINIMUM_ENCODED_LENGTH in Hge; rewrite ?len_cons in Hge;
         change (len []) with 0 in Hge; lia).
  injection Hsplit as -> -> -> -> -> Htl.
  rewrite readUInt32BE_be32, be32_of_Z, Z.mod_small
    by (pose proof (len_nonneg m); lia).
  unfold MINIMUM_ENCODED_LENGTH.
  match goal with
  | |- context [len ?b <? len m + 5] =>
      destruct (Z.ltb_spec (len b) (len m + 5)) as [_|Hge'];
        [reflexivity | lia]
  end.
Qed.

Lemma transform_emits_frame_any this chunk m extra :
  len m < 2 ^ 32 ->
  held this ++ chunk = pipe_to_header m ++ extra ->
  DecodingStream._transform this chunk
  = (pushed <- deliver (opts_of this) m ;;
     Ok (DecodingStream.mk (Some extra) (DecodingStream._unmarshal this),
         [pushed])).
Proof.
  intros Hm Hsplit.
  rewrite transform_on_held_any. cbv zeta. rewrite Hsplit.
  assert (Hlen : len (pipe_to_header m ++ extra) = 5 + len m + len extra)
    by (rewrite len_app, pipe_to_header_len; reflexivity).
  pose proof (len_nonneg m) as Hm0. pose proof (len_nonneg extra) as He0.
  unfold MINIMUM_ENCODED_LENGTH.
  destruct (Z.ltb_spec (len (pipe_to_header m ++ extra)) 5) as [Hlt|_];
    [lia|].
  rewrite pipe_to_header_eq in *. cbn [app] in *.
  rewrite readUInt32BE_be32, be32_of_Z, Z.mod_small by lia.
  match goal with
  | |- context [len ?b <? len m + 5] =>
      destruct (Z.ltb_spec (len b) (len m + 5)) as [Hlt|_]; [lia|]
  end.
  unfold slice, slice_from.
  replace (Z.to_nat (len m + 5)) with (5 + List.length m)%nat
    by (unfold len; lia).
  change (Z.to_nat 5) with 5%nat.
  replace (5 + List.length m - 5)%nat with (List.length m) by lia.
  cbn [skipn Nat.add].
  rewrite firstn_app, Nat.sub_diag, firstn_all, firstn_O, app_nil_r.
  rewrite skipn_app, Nat.sub_diag, skipn_all. reflexivity.
Qed.

Lemma write_all_empty_chunks_any this chunks :
  held this = [] -> List.concat chunks = [] ->
  exists this',
    DecodingStream.write_all this chunks = ([], Ok this')
    /\ DecodingStream._unmarshal this' = DecodingStream._unmarshal this
    /\ held this' = [].
Proof.
  revert this. induction chunks as [|chunk chunks IH]; intros this Hh Hc.
  - exists this. repeat split; assumption.
  - cbn [List.concat] in Hc. apply app_eq_nil in Hc as [-> Hc].
    cbn [DecodingStream.write_all].
    rewrite transform_on_held_any. cbv zeta. rewrite Hh. cbn [app].
    change (len [] <? MINIMUM_ENCODED_LENGTH) with true. cbv iota.
    destruct (IH (DecodingStream.mk (Some [])
                    (DecodingStream._unmarshal this)) eq_refl Hc)
      as [this' [Hw [Hu Hh']]].
    rewrite Hw. exists this'. repeat split; assumption.
Qed.

(** One frame, cut into chunks in any way, with or without an
    unmarshaller: what is pushed is what [deliver] makes of the payload,
    and its exception ends the writes. *)
Lemma write_all_one_frame_any m chunks : forall this,
  len m < 2 ^ 32 ->
  held this ++ List.concat chunks = pipe_to_header m ->
  len (held this) < len (pipe_to_header m) ->
  match deliver (opts_of this) m with
  | Ok v =>
      exists this',
        DecodingStream.write_all this chunks = ([v], Ok this')
        /\ DecodingStream._unmarshal this' = DecodingStream._unmarshal this
        /\ held this' = []
  | Throw err => DecodingStream.write_all this chunks = ([], Throw err)
  end.
Proof.
  induction chunks as [|chunk chunks IH]; intros this Hm Hsplit Hshort.
  - cbn [List.concat] in Hsplit. rewrite app_nil_r in Hsplit.
    rewrite Hsplit in Hshort. lia.
  - cbn [List.concat] in Hsplit. rewrite app_assoc in Hsplit.
    cbn [DecodingStream.write_all].
    destruct (List.concat chunks) as [|b rest] eqn:Erest.
    + rewrite app_nil_r in Hsplit.
      rewrite (transform_emits_frame_any this chunk m []);
        [|assumption|rewrite app_nil_r; assumption].
      destruct (deliver (opts_of this) m) as [v|err]; cbn [bind];
        [|reflexivity].
      destruct (write_all_empty_chunks_any
                  (DecodingStream.mk (Some [])
                     (DecodingStream._unmarshal this))
                  chunks eq_refl Erest) as [this' [Hw [Hu Hh']]].
      rewrite Hw. exists this'. repeat split; assumption.
    + rewrite (transform_keeps_prefix_any this chunk m (b :: rest));
        [|assumption|assumption|discriminate].
      specialize (IH (DecodingStream.mk (Some (held this ++ chunk))
                        (DecodingStream._unmarshal this)) Hm).
      cbn [held DecodingStream._buffer] in IH.
      assert (Hlt : len (held this ++ chunk) < len (pipe_to_header m)).
      { rewrite <- Hsplit, !len_app, len_cons.
        pose proof (len_nonneg rest). lia. }
      specialize (IH Hsplit Hlt).
      change (opts_of (DecodingStream.mk (Some (held this ++ chunk))
                         (DecodingStream._unmarshal this)))
        with (opts_of this) in IH.
      destruct (deliver (opts_of this) m) as [v|err].
      * destruct IH as [this' [Hw [Hu Hh']]].
        rewrite Hw. exists this'. repeat split; assumption.
      * rewrite IH. reflexivity.
Qed.

Lemma deliver_opts_of this opts m :
  DecodingStream._unmarshal this = unmarshal opts ->
  deliver (opts_of this) m = deliver opts m.
Proof. unfold deliver, opts_of. cbn [unmarshal]. intros ->. reflexivity. Qed.

Lemma write_all_frames_any (opts : Opts Obj) (ms : list Buffer) :
  forall (css : list (list Buffer)) this,
  DecodingStream._unmarshal this = unmarshal opts ->
  held this = [] ->
  Forall (fun m => len m < 2 ^ 32) ms ->
  Forall2 (fun m cs => List.concat cs = pipe_to_header m) ms css ->
  fst (DecodingStream.write_all this (List.concat css))
  = fst (deliver_all opts ms)
  /\ match snd (deliver_all opts ms) with
     | None =>
         exists this',
           snd (DecodingStream.write_all this (List.concat css)) = Ok this'
           /\ held this' = []
     | Some err =>
         snd (DecodingStream.write_all this (List.concat css)) = Throw err
     end.
Proof.
  induction ms as [|m ms IH]; intros css this Hu Hh Hlen Hcss.
  - inversion Hcss; subst. cbn. split; [reflexivity|].
    exists this. split; [reflexivity | assumption].
  - inversion Hcss as [|m' cs ms' css' Hcs Hrest]; subst.
    inversion Hlen as [|m' ms' Hm Hms]; subst.
    cbn [List.concat deliver_all].
    pose proof (write_all_one_frame_any m cs this Hm) as H1.
    rewrite Hh in H1. specialize (H1 Hcs).
    rewrite pipe_to_header_len in H1. change (len []) with 0 in H1.
    specialize (H1 ltac:(pose proof (len_nonneg m); lia)).
    rewrite (deliver_opts_of this opts m Hu) in H1.
    destruct (deliver opts m) as [v|err].
    + destruct H1 as [this1 [Hw [Hu1 Hh1]]].
      pose proof (write_all_app this cs (@List.concat Buffer css') _ this1 Hw)
        as Happ.
      destruct (IH css' this1 (eq_trans Hu1 Hu) Hh1 Hms Hrest) as [Hf Hs].
      destruct (deliver_all opts ms) as [vs r]. cbn [fst snd] in *.
      rewrite Happ. cbn [fst snd app]. rewrite Hf.
      split; [reflexivity | assumption].
    + cbn [fst snd].
      assert (Hstop : forall chunks2,
                 DecodingStream.write_all this (cs ++ chunks2)
                 = ([], Throw err)).
      { clear -H1. revert this H1.
        induction cs as [|c cs IHc]; intros this H1 chunks2;
          [discriminate|].
        cbn [DecodingStream.write_all app] in *.
        destruct (DecodingStream._transform this c) as [[this' out]|e];
          [|assumption].
        destruct (DecodingStream.write_all this' cs) as [outs r] eqn:E.
        injection H1 as Ho Hr. subst r.
        apply app_eq_nil in Ho as [-> ->].
        rewrite (IHc this' E chunks2). reflexivity. }
      rewrite Hstop. split; reflexivity.
Qed.

End StreamingWithCallbacks.

(** A run on chunks that cut the input between frames too. *)
Lemma run_frame_respecting (Obj : Type) (opts : Opts Obj)
    (ms : list Buffer) (css : list (list Buffer)) :
  Forall (fun m => len m < 2 ^ 32) ms ->
  Forall2 (fun m cs => List.concat cs = pipe_to_header m) ms css ->
  DecodingStream.run opts (List.concat css) = deliver_all opts ms.
Proof.
  intros Hlen Hcss.
  destruct (write_all_frames_any opts ms css (DecodingStream.new opts)
              eq_refl eq_refl Hlen Hcss) as [Hf Hs].
  unfold DecodingStream.run.
  destruct (DecodingStream.write_all (DecodingStream.new opts)
              (List.concat css)) as [outs r].
  destruct (deliver_all opts ms) as [vs e]. cbn [fst snd] in *. subst outs.
  destruct e as [err|].
  - rewrite Hs. reflexivity.
  - destruct Hs as [this' [-> Hh]].
    unfold DecodingStream._flush. unfold held in Hh.
    destruct (DecodingStream._buffer this') as [b|]; [subst b|];
      cbn; rewrite app_nil_r; reflexivity.
Qed.

(** X5.  Streaming and one-shot decoding agree, with or without an
    unmarshaller, whenever the chunks cut the input between frames too
    (one chunk per frame, one per byte, or any cut inside the frames):
    the stream emits what [decodeMessage] makes of each frame, in order,
    up to the first failure. *)
Theorem stream_decodes_each_frame (Obj : Type) (opts : Opts Obj)
    (ms : list Buffer) (css : list (list Buffer)) :
  Forall Buf.wf ms ->
  Forall2 (fun m cs => List.concat cs = pipe_to_header m) ms css ->
  DecodingStream.run opts (List.concat css) = deliver_all opts ms
  /\ Forall (fun m => decodeMessage (pipe_to_header m) opts = deliver opts m)
            ms.
Proof.
  intros Hwf Hcss.
  assert (Hlen : Forall (fun m => len m < 2 ^ 32) ms)
    by (eapply Forall_impl; [|exact Hwf]; intros m; apply wf_lt).
  split; [apply run_frame_respecting; assumption|].
  eapply Forall_impl; [|exact Hlen]. intros m Hm.
  apply decodeMessage_frame_of. assumption.
Qed.

Lemma stream_decodes_each_frame_witness :
  Forall Buf.wf [[x41]; [x42; x43]]
  /\ DecodingStream.run
       (mkOpts (Obj:=unit) None (Some (fun b => Ok (VBuffer (rev b)))))
       (List.concat
          [[[x00; x00]; [x00; x00; x01; x41]];
           [[x00; x00; x00; x00; x02; x42]; [x43]]])
     = ([VBuffer [x41]; VBuffer [x43; x42]], None).
Proof.
  assert (H : Forall Buf.wf [[x41]; [x42; x43]])
    by (repeat constructor; vm_compute; discriminate).
  split; [exact H|].
  exact (proj1 (stream_decodes_each_frame unit
                  (mkOpts None (Some (fun b => Ok (VBuffer (rev b)))))
                  [[x41]; [x42; x43]]
                  [[[x00; x00]; [x00; x00; x01; x41]];
                   [[x00; x00; x00; x00; x02; x42]; [x43]]]
                  H ltac:(repeat constructor))).
Defined.

Section StreamingAnyChunks.
Context {Obj : Type}.
Implicit Types (this : DecodingStream.t Obj) (m chunk : Buffer).

Lemma write_all_count this (chunks : list Buffer) :
  (List.length (fst (DecodingStream.write_all this chunks))
   <= List.length chunks)%nat.
Proof.
  revert this. induction chunks as [|c cs IH]; intro this; [cbn; lia|].
  cbn [DecodingStream.write_all].
  destruct (DecodingStream._transform this c) as [[this' out]|err] eqn:E;
    [|cbn; lia].
  apply transform_pushes_at_most_one in E. specialize (IH this').
  destruct (DecodingStream.write_all this' cs) as [outs r].
  cbn [fst List.length] in *. rewrite length_app. lia.
Qed.

Lemma flush_count this (last : list (jsval Obj)) :
  DecodingStream._flush this = Ok last -> (List.length last <= 1)%nat.
Proof.
  unfold DecodingStream._flush.
  destruct (DecodingStream._buffer this) as [b|];
    [|intro H; injection H as <-; cbn; lia].
  destruct (len b =? 0); [intro H; injection H as <-; cbn; lia|].
  destruct (decodeMessage b noOpts) as [buf|err]; cbn [bind];
    [|discriminate].
  destruct (DecodingStream._unmarshal this) as [f|].
  - destruct buf as [b'|o].
    + destruct (f b'); cbn [bind]; intro H; [|discriminate].
      injection H as <-. cbn. lia.
    + intro H. injection H as <-. cbn. lia.
  - intro H. injection H as <-. cbn. lia.
Qed.

(** The frames of a sequence of messages, one after the other. *)
Lemma frames_cons m (ms : list Buffer) :
  List.concat (map pipe_to_header (m :: ms))
  = pipe_to_header m ++ List.concat (map pipe_to_header ms).
Proof. reflexivity. Qed.

(** Whatever the chunks, a stream fed the frames of [ms] has pushed a
    prefix of [ms] and holds the frames of the rest. *)
Lemma write_all_prefix (chunks : list Buffer) : forall (ms : list Buffer) this,
  raw this ->
  Forall (fun m => len m < 2 ^ 32) ms ->
  held this ++ List.concat chunks = List.concat (map pipe_to_header ms) ->
  exists (k : nat) this',
    (k <= List.length ms)%nat
    /\ DecodingStream.write_all this chunks
       = (map VBuffer (firstn k ms), Ok this')
    /\ raw this'
    /\ held this' = List.concat (map pipe_to_header (skipn k ms)).
Proof.
  induction chunks as [|c cs IH]; intros ms this Hraw Hlen Hsplit.
  - exists 0%nat, this. cbn [List.concat] in Hsplit.
    rewrite app_nil_r in Hsplit. cbn [firstn skipn map].
    repeat split; [lia | assumption | assumption].
  - cbn [List.concat] in Hsplit. rewrite app_assoc in Hsplit.
    cbn [DecodingStream.write_all].
    destruct ms as [|m ms].
    + cbn [map List.concat] in Hsplit.
      apply app_eq_nil in Hsplit as [Hhc Hcs].
      apply app_eq_nil in Hhc as [Hh ->].
      destruct (write_all_empty_chunks this ([] :: cs) Hraw Hh Hcs)
        as [this' [Hw [Hr' Hh']]].
      cbn [DecodingStream.write_all] in Hw.
      exists 0%nat, this'. cbn [firstn skipn map List.concat List.length].
      repeat split; [lia | assumption | assumption | assumption].
    + inversion Hlen as [|m' ms' Hm Hms]; subst.
      rewrite frames_cons in Hsplit.
      assert (Hcase :
        (exists extra, held this ++ c = pipe_to_header m ++ extra
                       /\ extra ++ List.concat cs
                          = List.concat (map pipe_to_header ms))
        \/ (exists rest, (held this ++ c) ++ rest = pipe_to_header m
                         /\ rest <> [])).
      { apply app_eq_app in Hsplit as [l [[H1 H2] | [H1 H2]]].
        - left. exists l. split; [assumption | symmetry; assumption].
        - destruct l as [|b l].
          + left. exists []. rewrite app_nil_r in *. cbn [app] in *.
            split; [symmetry; assumption | assumption].
          + right. exists (b :: l).
            split; [symmetry; assumption | discriminate]. }
      destruct Hcase as [[extra [Hfull Hrest]] | [rest [Hpre Hne]]].
      * rewrite (transform_emits_frame this c m extra Hraw Hm Hfull).
        destruct (IH ms (DecodingStream.mk (Some extra) None)
                    eq_refl Hms Hrest) as [k [this' [Hk [Hw [Hr' Hh']]]]].
        rewrite Hw. exists (S k), this'.
        cbn [firstn skipn map List.length app].
        repeat split; [lia | assumption | assumption].
      * rewrite (transform_keeps_prefix this c m rest Hraw Hm Hpre Hne).
        destruct (IH (m :: ms)
                    (DecodingStream.mk (Some (held this ++ c)) None)
                    eq_refl Hlen) as [k [this' [Hk [Hw [Hr' Hh']]]]].
        { cbn [held DecodingStream._buffer]. rewrite frames_cons.
          assumption. }
        rewrite Hw. exists k, this'. cbn [app].
        repeat split; assumption.
Qed.

(** The flush of a stream that holds whole frames: nothing to do when it
    holds none, the payload when it holds one, and the error of
    [decodeMessage] when it holds more. *)
Lemma flush_frames this (ms : list Buffer) :
  raw this ->
  Forall (fun m => len m < 2 ^ 32) ms ->
  held this = List.concat (map pipe_to_header ms) ->
  DecodingStream._flush this
  = match ms with
    | [] => Ok []
    | [m] => Ok [VBuffer m]
    | _ :: _ :: _ => Throw (Error "Encoded message length is wrong")
    end.
Proof.
  intros Hraw Hlen Hh. unfold DecodingStream._flush. rewrite Hraw.
  unfold held in Hh.
  destruct ms as [|m ms].
  - cbn [map List.concat] in Hh.
    destruct (DecodingStream._buffer this); [subst|]; reflexivity.
  - inversion Hlen as [|m' ms' Hm Hms]; subst.
    rewrite frames_cons in Hh.
    destruct (DecodingStream._buffer this) as [b|];
      [subst b | rewrite pipe_to_header_eq in Hh; discriminate].
    assert (Hnz : (len (pipe_to_header m
                        ++ List.concat (map pipe_to_header ms)) =? 0)
                  = false).
    { apply Z.eqb_neq. rewrite len_app, pipe_to_header_len.
      pose proof (len_nonneg m).
      pose proof (len_nonneg (List.concat (map pipe_to_header ms))). lia. }
    rewrite Hnz. destruct ms as [|m2 ms].
    + cbn [map List.concat]. rewrite app_nil_r.
      rewrite decodeMessage_frame_of by assumption. reflexivity.
    + rewrite (pipe_to_header_eq m). cbn [app].
      rewrite decodeMessage_frame, be32_of_Z, Z.mod_small
        by (pose proof (len_nonneg m); lia).
      assert (Hne : (len (m ++ List.concat (map pipe_to_header (m2 :: ms)))
                     =? len m) = false).
      { apply Z.eqb_neq. rewrite frames_cons, !len_app, pipe_to_header_len.
        pose proof (len_nonneg m2).
        pose proof (len_nonneg (List.concat (map pipe_to_header ms))). lia. }
      rewrite Hne. reflexivity.
Qed.

(** Chunks that add up to a strict prefix of a frame are all kept. *)
Lemma write_all_keeps_prefix m (chunks : list Buffer) : forall this rest,
  raw this -> len m < 2 ^ 32 ->
  (held this ++ List.concat chunks) ++ rest = pipe_to_header m ->
  rest <> [] ->
  exists this',
    DecodingStream.write_all this chunks = ([], Ok this')
    /\ raw this' /\ held this' = held this ++ List.concat chunks.
Proof.
  induction chunks as [|c cs IH]; intros this rest Hraw Hm Hsplit Hne.
  - exists this. cbn [List.concat]. rewrite app_nil_r.
    repeat split. assumption.
  - cbn [List.concat] in *. rewrite app_assoc in Hsplit.
    cbn [DecodingStream.write_all].
    rewrite (transform_keeps_prefix this c m (List.concat cs ++ rest));
      [|assumption|assumption|rewrite app_assoc; assumption
       |destruct (List.concat cs); [assumption | discriminate]].
    destruct (IH (DecodingStream.mk (Some (held this ++ c)) None) rest
                eq_refl Hm Hsplit Hne) as [this' [Hw [Hr' Hh']]].
    rewrite Hw. exists this'. cbn [held DecodingStream._buffer] in Hh'.
    rewrite app_assoc. repeat split; assumption.
Qed.

End StreamingAnyChunks.

(** X6.  Whatever the chunks, the decoding stream is safe: fed the frames
    of [m1 .. mN] cut in any way, it emits a prefix of [m1 .. mN], never
    another message and never out of order; it ends without an error
    exactly when it has emitted them all, and otherwise with the error of
    [decodeMessage] on the frames left in its buffer. *)
Theorem stream_emits_prefix (Obj : Type) (ms chunks : list Buffer) :
  Forall Buf.wf ms ->
  List.concat chunks = List.concat (map pipe_to_header ms) ->
  exists k : nat,
    (k <= List.length ms)%nat
    /\ DecodingStream.run (Obj:=Obj) noOpts chunks
       = (map VBuffer (firstn k ms),
          if (k =? List.length ms)%nat then None
          else Some (Error "Encoded message length is wrong")).
Proof.
  intros Hwf Hsplit.
  assert (Hlen : Forall (fun m => len m < 2 ^ 32) ms)
    by (eapply Forall_impl; [|exact Hwf]; intros m; apply wf_lt).
  destruct (write_all_prefix (Obj:=Obj) chunks ms (DecodingStream.new noOpts)
              eq_refl Hlen Hsplit) as [k [this' [Hk [Hw [Hr' Hh']]]]].
  unfold DecodingStream.run. rewrite Hw.
  assert (Hlen' : Forall (fun m => len m < 2 ^ 32) (skipn k ms)).
  { rewrite <- (firstn_skipn k ms) in Hlen.
    apply Forall_app in Hlen as [_ H]. exact H. }
  rewrite (flush_frames this' (skipn k ms) Hr' Hlen' Hh').
  pose proof (firstn_skipn k ms) as Hfs.
  pose proof (length_skipn k ms) as Hls.
  destruct (skipn k ms) as [|m [|m2 rest]] eqn:Es.
  - exists k. split; [assumption|]. cbn [List.length] in Hls.
    replace (k =? List.length ms)%nat with true
      by (symmetry; apply Nat.eqb_eq; lia).
    rewrite app_nil_r. reflexivity.
  - exists (List.length ms). split; [lia|].
    rewrite Nat.eqb_refl, firstn_all.
    rewrite <- Hfs at 2. rewrite map_app. reflexivity.
  - exists k. split; [assumption|]. cbn [List.length] in Hls.
    replace (k =? List.length ms)%nat with false
      by (symmetry; apply Nat.eqb_neq; lia).
    reflexivity.
Qed.

Lemma stream_emits_prefix_witness :
  Forall Buf.wf [[x41]; [x42; x43]; [x44]]
  /\ exists k : nat,
       (k <= 3)%nat
       /\ DecodingStream.run (Obj:=unit) noOpts
            [pipe_to_header [x41] ++ pipe_to_header [x42; x43];
             pipe_to_header [x44]]
          = (map VBuffer (firstn k [[x41]; [x42; x43]; [x44]]),
             if (k =? 3)%nat then None
             else Some (Error "Encoded message length is wrong")).
Proof.
  assert (H : Forall Buf.wf [[x41]; [x42; x43]; [x44]])
    by (repeat constructor; vm_compute; discriminate).
  split; [exact H|].
  exact (stream_emits_prefix unit [[x41]; [x42; x43]; [x44]]
           [pipe_to_header [x41] ++ pipe_to_header [x42; x43];
            pipe_to_header [x44]] H eq_refl).
Defined.

(** X7.  The stream emits at most one message for each chunk written,
    and at most one more at the flush, whatever the chunks hold and
    whatever the unmarshaller is. *)
Theorem stream_lag_bound (Obj : Type) (opts : Opts Obj)
    (chunks : list Buffer) :
  (List.length (fst (DecodingStream.run opts chunks))
   <= List.length chunks + 1)%nat.
Proof.
  unfold DecodingStream.run.
  pose proof (write_all_count (DecodingStream.new opts) chunks) as Hc.
  destruct (DecodingStream.write_all (DecodingStream.new opts) chunks)
    as [outs [this'|err]]; cbn [fst] in *; [|lia].
  destruct (DecodingStream._flush this') as [last|err] eqn:E;
    cbn [fst]; [|lia].
  apply flush_count in E. rewrite length_app. lia.
Qed.

(** X8.  An input that ends inside a frame: after the frames of
    [m1 .. mN], cut between frames, come chunks that hold only a part of
    one more frame.  The stream emits [m1 .. mN] and the flush fails: with
    a [RangeError] when fewer than five bytes of the last frame came, and
    with the length error otherwise. *)
Theorem stream_truncated_frame (Obj : Type) (ms : list Buffer)
    (css : list (list Buffer)) (m part rest : Buffer) (tail : list Buffer) :
  Forall Buf.wf ms -> Buf.wf m ->
  Forall2 (fun m cs => List.concat cs = pipe_to_header m) ms css ->
  List.concat tail = part -> part ++ rest = pipe_to_header m ->
  part <> [] -> rest <> [] ->
  DecodingStream.run (Obj:=Obj) noOpts (List.concat css ++ tail)
  = (map VBuffer ms,
     Some (if len part <? 5
           then RangeError "Encoded message was smaller than 5"
           else Error "Encoded message length is wrong")).
Proof.
  intros Hwf Hm Hcss Htail Hsplit Hpart Hrest.
  assert (Hlen : Forall (fun m => len m < 2 ^ 32) ms)
    by (eapply Forall_impl; [|exact Hwf]; intros x; apply wf_lt).
  apply wf_lt in Hm.
  destruct (write_all_frames ms css (DecodingStream.new (Obj:=Obj) noOpts)
              eq_refl eq_refl Hlen Hcss) as [this1 [Hw1 [Hr1 Hh1]]].
  destruct (write_all_keeps_prefix m tail this1 rest Hr1 Hm)
    as [this2 [Hw2 [Hr2 Hh2]]];
    [rewrite Hh1, Htail; assumption | assumption |].
  rewrite Hh1, Htail in Hh2. cbn [app] in Hh2.
  unfold DecodingStream.run.
  rewrite (write_all_app _ _ tail _ this1 Hw1), Hw2. cbn [fst snd].
  rewrite app_nil_r.
  unfold DecodingStream._flush. rewrite Hr2. unfold held in Hh2.
  destruct (DecodingStream._buffer this2) as [b|]; [subst b|congruence].
  assert (Hnz : (len part =? 0) = false).
  { apply Z.eqb_neq. destruct part; [contradiction|]. rewrite len_cons.
    pose proof (len_nonneg part). lia. }
  rewrite Hnz.
  destruct (Z.ltb_spec (len part) 5) as [Hshort|Hlong].
  - rewrite decodeMessage_short by assumption. reflexivity.
  - rewrite pipe_to_header_eq in Hsplit.
    destruct part as [|c [|b1 [|b2 [|b3 [|b4 tl]]]]];
      try (rewrite ?len_cons in Hlong; change (len []) with 0 in Hlong; lia).
    injection Hsplit as -> -> -> -> -> Htl.
    rewrite decodeMessage_frame, be32_of_Z, Z.mod_small
      by (pose proof (len_nonneg m); lia).
    assert (Hne : (len tl =? len m) = false).
    { apply Z.eqb_neq. rewrite <- Htl, len_app.
      destruct rest; [contradiction|]. rewrite len_cons.
      pose proof (len_nonneg rest). lia. }
    rewrite Hne. reflexivity.
Qed.

Lemma stream_truncated_frame_witness :
  DecodingStream.run (Obj:=unit) noOpts
    (List.concat [[pipe_to_header [x41]]]
     ++ [[x00; x00; x00]; [x00; x02; x42]])
  = (map VBuffer [[x41]],
     Some (if len [x00; x00; x00; x00; x02; x42] <? 5
           then RangeError "Encoded message was smaller than 5"
           else Error "Encoded message length is wrong")).
Proof.
  apply (stream_truncated_frame unit [[x41]] [[pipe_to_header [x41]]]
           [x42; x43] [x00; x00; x00; x00; x02; x42] [x43]
           [[x00; x00; x00]; [x00; x02; x42]]).
  - repeat constructor. vm_compute. discriminate.
  - vm_compute. discriminate.
  - repeat constructor.
  - reflexivity.
  - reflexivity.
  - discriminate.
  - discriminate.
Defined.

(** ** The encoding stream *)

Section Encoding.
Context {Obj : Type}.
Implicit Types (opts : Opts Obj) (msgs : list (jsval Obj)) (bs : list Buffer).

Lemma encoding_transform opts (msg : jsval Obj) :
  EncodingStream._transform (EncodingStream.new opts) msg
  = (b <- marshalled opts msg ;; Ok (pipe_to_header b)).
Proof.
  unfold EncodingStream._transform, EncodingStream.new.
  cbn [EncodingStream._marshal]. rewrite encodeMessage_marshalled.
  reflexivity.
Qed.

Lemma encoding_write_all opts msgs : forall bs,
  Forall2 (fun msg b => marshalled opts msg = Ok b) msgs bs ->
  forall rest,
    EncodingStream.write_all (EncodingStream.new opts) (msgs ++ rest)
    = (map pipe_to_header bs
         ++ fst (EncodingStream.write_all (EncodingStream.new opts) rest),
       snd (EncodingStream.write_all (EncodingStream.new opts) rest)).
Proof.
  induction msgs as [|msg msgs IH]; intros bs H rest.
  - inversion H; subst. cbn [app map].
    destruct (EncodingStream.write_all _ rest); reflexivity.
  - inversion H as [|msg' b msgs' bs' Hb Hbs]; subst.
    cbn [app EncodingStream.write_all map].
    rewrite encoding_transform, Hb. cbn [bind].
    rewrite (IH bs' Hbs rest). reflexivity.
Qed.

Lemma deliver_all_ok opts msgs : forall bs,
  Forall2 (fun msg b => deliver opts b = Ok msg) msgs bs ->
  deliver_all opts bs = (msgs, None).
Proof.
  induction msgs as [|msg msgs IH]; intros bs H;
    inversion H as [|msg' b msgs' bs' Hb Hbs]; subst; [reflexivity|].
  cbn [deliver_all]. rewrite Hb, (IH bs' Hbs). reflexivity.
Qed.

End Encoding.

Lemma encoding_run_ok (Obj : Type) (opts : Opts Obj)
    (msgs : list (jsval Obj)) (bs : list Buffer) :
  Forall2 (fun msg b => marshalled opts msg = Ok b) msgs bs ->
  EncodingStream.run opts msgs = (map pipe_to_header bs, None).
Proof.
  intro H. unfold EncodingStream.run.
  rewrite <- (app_nil_r msgs), (encoding_write_all opts msgs bs H []).
  cbn. rewrite app_nil_r. reflexivity.
Qed.

(** X9.  The encoding stream frames each message on its own, in order,
    and a marshaller that throws ends it: the frames of the messages
    before are the whole output, the error is emitted, and no message
    after it is encoded. *)
Theorem encoding_stream_output (Obj : Type) (opts : Opts Obj)
    (msgs : list (jsval Obj)) (bs : list Buffer) :
  Forall2 (fun msg b => marshalled opts msg = Ok b) msgs bs ->
  EncodingStream.run opts msgs = (map pipe_to_header bs, None)
  /\ (forall (bad : jsval Obj) (err : JsError) (later : list (jsval Obj)),
        marshalled opts bad = Throw err ->
        EncodingStream.run opts (msgs ++ bad :: later)
        = (map pipe_to_header bs, Some err)).
Proof.
  intro H. split; [apply encoding_run_ok; assumption|].
  intros bad err later Hbad. unfold EncodingStream.run.
  rewrite (encoding_write_all opts msgs bs H (bad :: later)).
  cbn [EncodingStream.write_all]. rewrite encoding_transform, Hbad.
  cbn. rewrite app_nil_r. reflexivity.
Qed.

Lemma encoding_stream_output_witness :
  EncodingStream.run
    (mkOpts (Obj:=unit)
       (Some (fun v => match v with
                       | VBuffer b => Ok (rev b)
                       | VObject _ => Throw (Error "cannot marshal")
                       end)) None)
    ([VBuffer [x41; x42]; VBuffer []] ++ VObject tt :: [VBuffer [x43]])
  = (map pipe_to_header [[x42; x41]; []], Some (Error "cannot marshal")).
Proof.
  apply (proj2 (encoding_stream_output unit
                  (mkOpts
                     (Some (fun v => match v with
                                     | VBuffer b => Ok (rev b)
                                     | VObject _ =>
                                         Throw (Error "cannot marshal")
                                     end)) None)
                  [VBuffer [x41; x42]; VBuffer []] [[x42; x41]; []]
                  ltac:(repeat constructor))).
  reflexivity.
Defined.

(** X10.  The two streams compose: when the unmarshaller gives back the
    message the marshaller was given (in particular without callbacks),
    writing what the encoding stream pushes into the decoding stream,
    one chunk for each push, yields the messages that were written, in
    order and without an error. *)
Theorem encoding_then_decoding_stream (Obj : Type) (opts : Opts Obj)
    (msgs : list (jsval Obj)) (bs : list Buffer) :
  Forall2 (fun msg b =>
             marshalled opts msg = Ok b /\ Buf.wf b
             /\ deliver opts b = Ok msg) msgs bs ->
  snd (EncodingStream.run opts msgs) = None
  /\ DecodingStream.run opts (fst (EncodingStream.run opts msgs))
     = (msgs, None).
Proof.
  intro H.
  assert (Hm : Forall2 (fun msg b => marshalled opts msg = Ok b) msgs bs)
    by (eapply Forall2_impl; [|exact H]; intros a b [Ha _]; exact Ha).
  assert (Hd : Forall2 (fun msg b => deliver opts b = Ok msg) msgs bs)
    by (eapply Forall2_impl; [|exact H]; intros a b [_ [_ Hb]]; exact Hb).
  assert (Hwf : Forall Buf.wf bs).
  { clear Hm Hd. induction H as [|a b l l' [_ [Hb _]] _ IH];
      constructor; assumption. }
  rewrite (encoding_run_ok Obj opts msgs bs Hm).
  cbn [fst snd]. split; [reflexivity|].
  assert (Hcss : Forall2 (fun m cs => List.concat cs = pipe_to_header m) bs
                   (map (fun b => [pipe_to_header b]) bs)).
  { clear. induction bs as [|b bs IH]; constructor; [|assumption].
    cbn [List.concat]. apply app_nil_r. }
  assert (Hflat : List.concat (map (fun b => [pipe_to_header b]) bs)
                  = map pipe_to_header bs).
  { clear. induction bs as [|b bs IH]; [reflexivity|].
    cbn [map List.concat app]. rewrite IH. reflexivity. }
  rewrite <- Hflat.
  rewrite (run_frame_respecting Obj opts bs _
             ltac:(eapply Forall_impl; [|exact Hwf]; intros m; apply wf_lt)
             Hcss).
  apply deliver_all_ok. assumption.
Qed.

Lemma encoding_then_decoding_stream_witness :
  DecodingStream.run (Obj:=unit) noOpts
    (fst (EncodingStream.run (Obj:=unit) noOpts [VBuffer [x41]; VBuffer []]))
  = ([VBuffer [x41]; VBuffer []], None).
Proof.
  apply (proj2 (encoding_then_decoding_stream unit noOpts
                  [VBuffer [x41]; VBuffer []] [[x41]; []]
                  ltac:(repeat constructor; vm_compute; discriminate))).
Defined.

(** ** More on intervals *)

Lemma uint_codes_digits (u : Decimal.uint) :
  forallb is_digit (uint_codes u) = true.
Proof. induction u; cbn [uint_codes forallb]; try rewrite IHu; reflexivity. Qed.

Lemma parse_step (acc : Z) (d : N) (rest : jsstring) :
  fold_left (fun a c => 10 * a + (Z.of_N c - 48)) (digit_code d :: rest) acc
  = fold_left (fun a c => 10 * a + (Z.of_N c - 48)) rest (10 * acc + Z.of_N d).
Proof.
  cbn [fold_left]. f_equal. unfold digit_code. lia.
Qed.

Lemma parse_uint_acc (u : Decimal.uint) : forall acc : positive,
  fold_left (fun a c => 10 * a + (Z.of_N c - 48)) (uint_codes u) (Z.pos acc)
  = Z.pos (Pos.of_uint_acc u acc).
Proof.
  induction u; intro acc; cbn [uint_codes Pos.of_uint_acc];
    [reflexivity | rewrite parse_step, <- IHu; f_equal; lia ..].
Qed.

Lemma parse_uint (u : Decimal.uint) :
  parseInt_digits (uint_codes u) = Z.of_N (Pos.of_uint u).
Proof.
  unfold parseInt_digits.
  induction u; cbn [uint_codes Pos.of_uint];
    [reflexivity | rewrite parse_step; exact IHu
     | rewrite parse_step; cbn [Z.of_N];
       rewrite <- parse_uint_acc; reflexivity ..].
Qed.

Lemma of_uint_acc_lower (u : Decimal.uint) : forall acc : positive,
  Z.pos acc * 10 ^ Z.of_nat (List.length (uint_codes u))
  <= Z.pos (Pos.of_uint_acc u acc).
Proof.
  induction u; intro acc; cbn [uint_codes Pos.of_uint_acc List.length];
    [cbn; lia
    | rewrite Nat2Z.inj_succ, Z.pow_succ_r by lia;
      etransitivity; [|apply IHu];
      assert (0 < 10 ^ Z.of_nat (List.length (uint_codes u)))
        by (apply Z.pow_pos_nonneg; lia);
      nia ..].
Qed.

Lemma nzhead_lead (v : Decimal.uint) :
  match Decimal.nzhead v with
  | Decimal.D0 _ => False
  | _ => True
  end.
Proof. induction v; cbn [Decimal.nzhead]; try exact I. exact IHv. Qed.

(** The decimal digits of a positive number do not begin with 0. *)
Lemma to_uint_lead (p : positive) :
  match Pos.to_uint p with
  | Decimal.Nil | Decimal.D0 _ => False
  | _ => True
  end.
Proof.
  pose proof (DecimalPos.Unsigned.to_of (Pos.to_uint p)) as H.
  rewrite DecimalPos.Unsigned.of_to in H. cbn [N.to_uint] in H.
  pose proof (DecimalPos.Unsigned.to_uint_nonzero p) as Hnz.
  pose proof (DecimalPos.Unsigned.to_uint_nonnil p) as Hnn.
  destruct (Pos.to_uint p) as [|u| | | | | | | | | ]; try exact I;
    [contradiction|].
  unfold Decimal.unorm in H. cbn [Decimal.nzhead] in H.
  pose proof (nzhead_lead u) as Hl.
  destruct (Decimal.nzhead u); try discriminate H; contradiction.
Qed.

(** ['' + z] for a number that is not negative: one digit or more, no
    more than eight up to 99,999,999, and [parseInt] reads the number
    back. *)
Lemma number_toString_nonneg (z : Z) :
  0 <= z ->
  number_toString z <> []
  /\ forallb is_digit (number_toString z) = true
  /\ parseInt_digits (number_toString z) = z
  /\ (z <= 99999999 -> (List.length (number_toString z) <= 8)%nat).
Proof.
  intro Hz. unfold number_toString.
  destruct z as [|p|p]; [| |lia].
  - cbn. repeat split; try discriminate. lia.
  - cbn [Z.to_int].
    pose proof (to_uint_lead p) as Hlead.
    pose proof (DecimalPos.Unsigned.of_to p) as Hof.
    split; [|split; [apply uint_codes_digits|split]].
    + destruct (Pos.to_uint p); cbn [uint_codes];
        [contradiction | discriminate ..].
    + rewrite parse_uint, Hof. reflexivity.
    + intro Hle.
      destruct (Pos.to_uint p) as [|u|u|u|u|u|u|u|u|u|u] eqn:E;
        try contradiction;
        cbn [uint_codes List.length Pos.of_uint] in *;
        injection Hof as Hof;
        match type of Hof with
        | Pos.of_uint_acc u ?acc = p =>
            pose proof (of_uint_acc_lower u acc) as Hlow
        end;
        rewrite Hof in Hlow;
        destruct (Nat.le_gt_cases (List.length (uint_codes u)) 7)
          as [Hok|Hbig]; try lia;
        exfalso;
        assert (H8 : 10 ^ 8 <= 10 ^ Z.of_nat (List.length (uint_codes u)))
          by (apply Z.pow_le_mono_r; lia);
        change (10 ^ 8) with 100000000 in H8; lia.
Qed.

Lemma unit_suffix_code (u : time_unit) :
  exists c : N,
    unit_suffix u = [c] /\ is_suffix c = true /\ c <> 110%N
    /\ weight c = unit_micros u.
Proof.
  destruct u; eexists; (split; [reflexivity|]); repeat split; discriminate.
Qed.

(** The digits of an amount followed by the suffix of a unit are a
    string of the grammar, and decoding it gives the amount times the
    unit while that product is a safe integer. *)
Lemma intervalToMicros_encoded (a : Z) (u : time_unit) :
  0 <= a ->
  exists c : N,
    unit_suffix u = [c] /\ c <> 110%N
    /\ interval_grammar (number_toString a ++ unit_suffix u)
         (number_toString a) c
    /\ (unit_micros u * a <= MAX_SAFE_INTEGER ->
        intervalToMicros (number_toString a ++ unit_suffix u)
        = Ok (Num (unit_micros u * a))).
Proof.
  intro Ha.
  destruct (number_toString_nonneg a Ha) as [Hne [Hds [Hparse _]]].
  destruct (unit_suffix_code u) as [c [Hc [Hs [Hn Hw]]]].
  exists c. rewrite Hc.
  assert (Hg : interval_grammar (number_toString a ++ [c])
                 (number_toString a) c) by (repeat split; assumption).
  repeat split; try assumption; try apply Hg.
  intro Hsafe.
  rewrite (intervalToMicros_matched _ _ _
             (proj1 (match_intervalRx_grammar _ _ _) Hg)).
  assert (Hv : interval_value (number_toString a) c = unit_micros u * a).
  { unfold interval_value. apply N.eqb_neq in Hn. rewrite Hn, Hw, Hparse.
    reflexivity. }
  rewrite <- Hv. f_equal. apply interval_number_safe.
  - assumption.
  - rewrite Hparse. pose proof (unit_micros_pos u). nia.
  - rewrite Hv. assumption.
Qed.

Lemma microsToInterval_is_rule (micros : Z) :
  microsToInterval micros = interval_rule micros.
Proof.
  unfold microsToInterval, interval_rule.
  rewrite microsBySuffix_units, forEach_rule_on. reflexivity.
Qed.

Lemma first_dividing_unit (micros : Z) :
  exists u,
    find (fun u => Z.rem micros (unit_micros u) =? 0) unit_order = Some u
    /\ Z.rem micros (unit_micros u) = 0.
Proof.
  destruct (find _ unit_order) as [u|] eqn:E.
  - exists u. split; [reflexivity|].
    apply find_some in E as [_ H]. apply Z.eqb_eq. assumption.
  - exfalso.
    pose proof (find_none _ _ E Micros
                  ltac:(cbn; intuition)) as H.
    cbn [unit_micros] in H. rewrite Z.rem_1_r in H. discriminate.
Qed.

(** What [microsToInterval] returns when the amount in hours fits: an
    amount of at most 99,999,999 and the suffix of a unit, the amount
    being the input in that unit, floored. *)
Lemma microsToInterval_shape (micros : Z) :
  micros / unit_micros Hours <= 99999999 ->
  exists (a : Z) (u : time_unit),
    microsToInterval micros = Ok (number_toString a ++ unit_suffix u)
    /\ a = micros / unit_micros u /\ a <= 99999999.
Proof.
  intro Hfit. rewrite microsToInterval_is_rule.
  unfold interval_rule, rule_on.
  destruct (first_dividing_unit micros) as [u0 [Hfind Hrem]].
  rewrite Hfind.
  destruct (fit_exact micros u0 Hrem) as [Hamt Hstop].
  destruct (fit 4 (Z.quot micros (unit_micros u0)) u0) as [a u].
  cbn [fst snd] in *.
  assert (Ha : a <= 99999999).
  { destruct Hstop as [H | ->]; [assumption|]. rewrite Hamt. assumption. }
  apply Z.leb_le in Ha as Hb. rewrite Hb.
  exists a, u. repeat split; assumption.
Qed.

Lemma safe_fits (micros : Z) :
  micros <= MAX_SAFE_INTEGER -> micros / unit_micros Hours <= 99999999.
Proof.
  unfold MAX_SAFE_INTEGER. cbn [unit_micros].
  change (2 ^ 53 - 1) with 9007199254740991. intro H.
  Z.to_euclidean_division_equations. lia.
Qed.

(** X11.  On a safe integer that is not negative [microsToInterval] never
    throws, and what it returns is a valid interval: [isInterval] accepts
    it, its digits field has at most eight digits and a value of at most
    99,999,999, and its suffix is never [n]. *)
Theorem microsToInterval_valid (micros : Z) :
  0 <= micros <= MAX_SAFE_INTEGER ->
  exists (r digits : jsstring) (suffix : N),
    microsToInterval micros = Ok r
    /\ isInterval r = true
    /\ interval_grammar r digits suffix
    /\ (List.length digits <= 8)%nat
    /\ 0 <= parseInt_digits digits <= 99999999
    /\ suffix <> 110%N.
Proof.
  intros [H0 Hsafe].
  destruct (microsToInterval_shape micros (safe_fits micros Hsafe))
    as [a [u [Henc [Ha Hmax]]]].
  assert (Hpos : 0 <= a).
  { subst a. apply Z.div_pos; [assumption | apply unit_micros_pos]. }
  destruct (intervalToMicros_encoded a u Hpos) as [c [Hc [Hn [Hg _]]]].
  destruct (number_toString_nonneg a Hpos) as [_ [_ [Hparse Hlen]]].
  exists (number_toString a ++ unit_suffix u), (number_toString a), c.
  split; [assumption|]. split.
  - unfold isInterval.
    rewrite (proj1 (match_intervalRx_grammar _ _ _) Hg). reflexivity.
  - split; [assumption|]. split; [apply Hlen; assumption|].
    rewrite Hparse. split; [lia | assumption].
Qed.

Lemma microsToInterval_valid_witness :
  0 <= 10 ^ 14 <= MAX_SAFE_INTEGER
  /\ exists (r digits : jsstring) (suffix : N),
       microsToInterval (10 ^ 14) = Ok r
       /\ isInterval r = true
       /\ interval_grammar r digits suffix
       /\ (List.length digits <= 8)%nat
       /\ 0 <= parseInt_digits digits <= 99999999
       /\ suffix <> 110%N.
Proof.
  assert (H : 0 <= 10 ^ 14 <= MAX_SAFE_INTEGER) by (vm_compute; split; discriminate).
  split; [exact H|]. exact (microsToInterval_valid (10 ^ 14) H).
Defined.

(** X12.  Decoding what was encoded: for a safe integer that is not
    negative, [microsToInterval] returns digits followed by the suffix
    of a unit, the digits being [micros] in that unit, floored; and
    [intervalToMicros] of that string is [micros] rounded down to a
    multiple of that same unit: it never exceeds [micros] and falls
    short of it by less than the unit. *)
Theorem interval_encode_decode (micros : Z) :
  0 <= micros <= MAX_SAFE_INTEGER ->
  exists (r digits : jsstring) (u : time_unit) (v : Z),
    microsToInterval micros = Ok r
    /\ r = digits ++ unit_suffix u
    /\ digits <> [] /\ forallb is_digit digits = true
    /\ parseInt_digits digits = micros / unit_micros u
    /\ intervalToMicros r = Ok (Num v)
    /\ v = unit_micros u * (micros / unit_micros u)
    /\ v <= micros < v + unit_micros u.
Proof.
  intros [H0 Hsafe].
  destruct (microsToInterval_shape micros (safe_fits micros Hsafe))
    as [a [u [Henc [Ha Hmax]]]].
  assert (Hpos : 0 <= a).
  { subst a. apply Z.div_pos; [assumption | apply unit_micros_pos]. }
  pose proof (unit_micros_pos u) as Hu.
  assert (Hround : unit_micros u * a <= micros < unit_micros u * a + unit_micros u).
  { subst a.
    pose proof (Z.mul_div_le micros (unit_micros u) Hu).
    pose proof (Z.mul_succ_div_gt micros (unit_micros u) Hu). lia. }
  destruct (intervalToMicros_encoded a u Hpos) as [c [_ [_ [_ Hdec]]]].
  destruct (number_toString_nonneg a Hpos) as [Hne [Hds [Hparse _]]].
  exists (number_toString a ++ unit_suffix u), (number_toString a), u,
    (unit_micros u * a).
  split; [assumption|]. split; [reflexivity|].
  split; [assumption|]. split; [assumption|].
  split; [rewrite Hparse; assumption|].
  split; [apply Hdec; lia|].
  split; [subst a; reflexivity | assumption].
Qed.

Lemma interval_encode_decode_witness :
  0 <= 1234567 <= MAX_SAFE_INTEGER
  /\ exists (r digits : jsstring) (u : time_unit) (v : Z),
       microsToInterval 1234567 = Ok r
       /\ r = digits ++ unit_suffix u
       /\ digits <> [] /\ forallb is_digit digits = true
       /\ parseInt_digits digits = 1234567 / unit_micros u
       /\ intervalToMicros r = Ok (Num v)
       /\ v = unit_micros u * (1234567 / unit_micros u)
       /\ v <= 1234567 < v + unit_micros u.
Proof.
  assert (H : 0 <= 1234567 <= MAX_SAFE_INTEGER)
    by (vm_compute; split; discriminate).
  split; [exact H|]. exact (interval_encode_decode 1234567 H).
Defined.

(** The first unit that divides is at least as coarse as any unit that
    divides. *)
Lemma first_dividing_coarsest (micros : Z) (u u0 : time_unit) :
  find (fun u => Z.rem micros (unit_micros u) =? 0) unit_order = Some u0 ->
  Z.rem micros (unit_micros u) = 0 ->
  unit_micros u <= unit_micros u0.
Proof.
  intros Hfind Hu. apply Z.eqb_eq in Hu.
  unfold unit_order in Hfind. cbn [find unit_micros] in Hfind.
  destruct u; cbn [unit_micros] in Hu; rewrite ?Hu in Hfind;
    repeat match type of Hfind with
           | (if ?c then _ else _) = _ => destruct c
           end;
    try discriminate Hfind;
    injection Hfind as <-; cbn [unit_micros]; lia.
Qed.

(** The rule on an input whose amount in the first dividing unit fits:
    that amount, in that unit. *)
Lemma microsToInterval_first_fit (micros : Z) (u0 : time_unit) :
  find (fun u => Z.rem micros (unit_micros u) =? 0) unit_order = Some u0 ->
  Z.quot micros (unit_micros u0) <= 99999999 ->
  microsToInterval micros
  = Ok (number_toString (Z.quot micros (unit_micros u0)) ++ unit_suffix u0).
Proof.
  intros Hfind Hfit. rewrite microsToInterval_is_rule.
  unfold interval_rule, rule_on. rewrite Hfind.
  apply Z.leb_le in Hfit.
  replace (fit 4 (Z.quot micros (unit_micros u0)) u0)
    with (Z.quot micros (unit_micros u0), u0)
    by (cbn [fit]; rewrite Hfit; reflexivity).
  rewrite Hfit. reflexivity.
Qed.

(** X13.  An amount of at most 99,999,999 in any unit survives the round
    trip: encoding [amount * unit] and decoding the result gives
    [amount * unit] back exactly (the suffix may be that of a coarser
    unit). *)
Theorem interval_amount_round_trip (amount : Z) (u : time_unit) :
  0 <= amount <= 99999999 ->
  amount * unit_micros u <= MAX_SAFE_INTEGER ->
  exists r : jsstring,
    microsToInterval (amount * unit_micros u) = Ok r
    /\ intervalToMicros r = Ok (Num (amount * unit_micros u)).
Proof.
  intros [H0 Hmax] Hsafe.
  set (micros := amount * unit_micros u) in *.
  pose proof (unit_micros_pos u) as Hu.
  assert (Hdiv : Z.rem micros (unit_micros u) = 0)
    by (unfold micros; apply Z.rem_mul; lia).
  destruct (first_dividing_unit micros) as [u0 [Hfind Hrem]].
  pose proof (first_dividing_coarsest micros u u0 Hfind Hdiv) as Hcoarse.
  pose proof (Z.quot_rem' micros (unit_micros u0)) as Hq.
  rewrite Hrem, Z.add_0_r in Hq.
  pose proof (unit_micros_pos u0) as Hu0.
  assert (Hm0 : 0 <= micros) by (unfold micros; nia).
  assert (Hq0 : 0 <= Z.quot micros (unit_micros u0))
    by (apply Z.quot_pos; lia).
  assert (Hfit : Z.quot micros (unit_micros u0) <= 99999999).
  { enough (Z.quot micros (unit_micros u0) <= amount) by lia.
    rewrite Z.quot_div_nonneg by lia.
    apply Z.div_le_upper_bound; [lia|].
    unfold micros. rewrite (Z.mul_comm (unit_micros u0)).
    apply Z.mul_le_mono_nonneg_l; lia. }
  exists (number_toString (Z.quot micros (unit_micros u0)) ++ unit_suffix u0).
  split; [apply microsToInterval_first_fit; assumption|].
  destruct (intervalToMicros_encoded _ u0 Hq0) as [c [_ [_ [_ Hdec]]]].
  rewrite Hdec by (rewrite <- Hq; assumption).
  rewrite <- Hq. reflexivity.
Qed.

Lemma interval_amount_round_trip_witness :
  0 <= 90 <= 99999999 /\ 90 * unit_micros Seconds <= MAX_SAFE_INTEGER
  /\ exists r : jsstring,
       microsToInterval (90 * unit_micros Seconds) = Ok r
       /\ intervalToMicros r = Ok (Num (90 * unit_micros Seconds)).
Proof.
  assert (H1 : 0 <= 90 <= 99999999) by lia.
  assert (H2 : 90 * unit_micros Seconds <= MAX_SAFE_INTEGER)
    by (vm_compute; discriminate).
  split; [exact H1|]. split; [exact H2|].
  exact (interval_amount_round_trip 90 Seconds H1 H2).
Defined.

(** X14.  What [intervalToMicros] returns is never [NaN], since the
    lookup of the suffix never misses, and never negative: it is a
    number that holds an integer from 0 on, or [Infinity], which a long
    enough digits field gives. *)
Theorem intervalToMicros_number (s : jsstring) (v : jsnum) :
  intervalToMicros s = Ok v ->
  v <> NaN /\ (v = Infinity \/ exists z : Z, v = Num z /\ 0 <= z).
Proof.
  intro H.
  destruct (match_intervalRx s) as [[a b]|] eqn:E.
  - apply match_intervalRx_some in E as [suffix [-> Hg]].
    rewrite (intervalToMicros_matched s a suffix
               (proj1 (match_intervalRx_grammar _ _ _) Hg)) in H.
    injection H as <-. destruct Hg as [_ [_ [Hds Hsfx]]].
    destruct (interval_number_shape a suffix Hds Hsfx)
      as [-> | [z [-> Hz]]].
    + split; [discriminate | left; reflexivity].
    + split; [discriminate | right; exists z; split; [reflexivity | exact Hz]].
  - unfold intervalToMicros in H. rewrite E in H. discriminate.
Qed.

Lemma intervalToMicros_number_witness :
  intervalToMicros (str "1000n") = Ok (Num 1)
  /\ Num 1 <> NaN
  /\ (Num 1 = Infinity \/ exists z : Z, Num 1 = Num z /\ 0 <= z).
Proof.
  assert (H : intervalToMicros (str "1000n") = Ok (Num 1))
    by (vm_compute; reflexivity).
  split; [exact H|].
  exact (intervalToMicros_number (str "1000n") (Num 1) H).
Defined.

(** X15.  [microsToInterval] does not reject a negative input: it returns
    the negative amount with a suffix, a string with a minus sign that
    [isInterval] rejects and [intervalToMicros] throws on. *)
Theorem microsToInterval_negative (micros : Z) :
  - MAX_SAFE_INTEGER <= micros < 0 ->
  exists (a : Z) (u : time_unit),
    a < 0
    /\ microsToInterval micros = Ok (number_toString a ++ unit_suffix u)
    /\ micros = a * unit_micros u
    /\ hd_error (number_toString a ++ unit_suffix u) = Some 45%N
    /\ isInterval (number_toString a ++ unit_suffix u) = false
    /\ intervalToMicros (number_toString a ++ unit_suffix u)
       = Throw (RangeError "interval decode failed").
Proof.
  intros [_ Hneg].
  destruct (first_dividing_unit micros) as [u0 [Hfind Hrem]].
  pose proof (unit_micros_pos u0) as Hu.
  pose proof (Z.quot_rem' micros (unit_micros u0)) as Hq.
  rewrite Hrem, Z.add_0_r in Hq.
  assert (Ha : Z.quot micros (unit_micros u0) < 0).
  { destruct (Z.lt_ge_cases (Z.quot micros (unit_micros u0)) 0) as [|Hge];
      [assumption|].
    pose proof (Z.mul_nonneg_nonneg _ _ (Z.lt_le_incl _ _ Hu) Hge). lia. }
  exists (Z.quot micros (unit_micros u0)), u0.
  split; [assumption|].
  split; [apply microsToInterval_first_fit; [assumption | lia]|].
  split; [lia|].
  destruct (Z.quot micros (unit_micros u0)) as [|p|p]; try lia.
  unfold number_toString. cbn [Z.to_int app hd_error].
  split; [reflexivity|].
  unfold isInterval, intervalToMicros, match_intervalRx.
  cbn [span_digits]. change (is_digit 45) with false. cbv iota.
  split; reflexivity.
Qed.

Lemma microsToInterval_negative_witness :
  - MAX_SAFE_INTEGER <= -5 < 0
  /\ exists (a : Z) (u : time_unit),
       a < 0
       /\ microsToInterval (-5) = Ok (number_toString a ++ unit_suffix u)
       /\ -5 = a * unit_micros u
       /\ hd_error (number_toString a ++ unit_suffix u) = Some 45%N
       /\ isInterval (number_toString a ++ unit_suffix u) = false
       /\ intervalToMicros (number_toString a ++ unit_suffix u)
          = Throw (RangeError "interval decode failed").
Proof.
  assert (H : - MAX_SAFE_INTEGER <= -5 < 0)
    by (vm_compute; split; [discriminate | reflexivity]).
  split; [exact H|]. exact (microsToInterval_negative (-5) H).
Defined.

Lemma fit_coarser (steps : nat) : forall (a : Z) (u : time_unit),
  unit_micros u <= unit_micros (snd (fit steps a u)).
Proof.
  induction steps as [|steps IH]; intros a u; cbn [fit];
    destruct (a <=? 99999999); cbn [snd]; try apply Z.le_refl.
  destruct (coarser u) as [[f u']|] eqn:E; cbn [snd]; [|apply Z.le_refl].
  etransitivity; [|apply IH].
  destruct u; cbn in E; inversion E; subst; cbn; lia.
Qed.

(** X22.  The unit [microsToInterval] chooses is the coarsest that fits:
    whenever it returns a string, its suffix is that of a unit at least
    as coarse as every unit that divides the input exactly, so
    3,600,000,000 is "1H" and not "60M". *)
Theorem microsToInterval_coarsest (micros : Z) (r : jsstring) :
  0 <= micros <= MAX_SAFE_INTEGER ->
  microsToInterval micros = Ok r ->
  exists (a : Z) (u0 : time_unit),
    r = number_toString a ++ unit_suffix u0
    /\ forall u : time_unit,
         Z.rem micros (unit_micros u) = 0 ->
         unit_micros u <= unit_micros u0.
Proof.
  intros _ Henc. rewrite microsToInterval_is_rule in Henc.
  unfold interval_rule, rule_on in Henc.
  destruct (first_dividing_unit micros) as [u1 [Hfind Hrem]].
  rewrite Hfind in Henc.
  pose proof (fit_coarser 4 (Z.quot micros (unit_micros u1)) u1) as Hc.
  destruct (fit 4 (Z.quot micros (unit_micros u1)) u1) as [a u0].
  cbn [snd] in Hc.
  destruct (a <=? 99999999); [|discriminate].
  injection Henc as <-. exists a, u0. split; [reflexivity|].
  intros u Hu.
  pose proof (first_dividing_coarsest micros u u1 Hfind Hu). lia.
Qed.

Lemma microsToInterval_coarsest_witness :
  0 <= 3600000000 <= MAX_SAFE_INTEGER
  /\ microsToInterval 3600000000 = Ok (str "1H")
  /\ exists (a : Z) (u0 : time_unit),
       str "1H" = number_toString a ++ unit_suffix u0
       /\ forall u : time_unit,
            Z.rem 3600000000 (unit_micros u) = 0 ->
            unit_micros u <= unit_micros u0.
Proof.
  assert (H : 0 <= 3600000000 <= MAX_SAFE_INTEGER)
    by (vm_compute; split; discriminate).
  split; [exact H|]. split; [reflexivity|].
  exact (microsToInterval_coarsest 3600000000 (str "1H") H eq_refl).
Defined.

(** ** More on metadata values *)

Lemma isAscii_test_iff (s : jsstring) :
  isAscii_test s = true <-> ascii_string s.
Proof.
  unfold ascii_string. split.
  - intro H. destruct s as [|c s]; [discriminate|].
    split; [discriminate|]. unfold isAscii_test in H.
    apply Forall_forall. intros x Hx.
    rewrite forallb_forall in H. apply N.leb_le. exact (H x Hx).
  - intros [Hne Hall]. apply isAscii_test_ascii; assumption.
Qed.

Lemma is_binary_iff (x : scalar) : is_binary x = true <-> binary_scalar x.
Proof.
  destruct x as [s|b]; cbn [is_binary binary_scalar]; [|tauto].
  rewrite negb_true_iff, <- isAscii_test_iff.
  destruct (isAscii_test s); split; congruence.
Qed.

Lemma base64_alphabet_ascii : Forall ascii_code base64_alphabet.
Proof.
  unfold ascii_code. apply Forall_forall. intros c Hc.
  apply N.leb_le. revert c Hc. apply forallb_forall. reflexivity.
Qed.

Lemma base64_char_ascii (i : Z) : ascii_code (base64_char i).
Proof.
  unfold base64_char.
  assert (Hlt : (Z.to_nat (i mod 64) < List.length base64_alphabet)%nat).
  { change (List.length base64_alphabet) with 64%nat.
    pose proof (Z.mod_pos_bound i 64). lia. }
  pose proof base64_alphabet_ascii as H. rewrite Forall_forall in H.
  apply H. apply nth_In. assumption.
Qed.

Lemma toString_base64_ascii_upto (n : nat) : forall buf : Buffer,
  (List.length buf <= n)%nat -> Forall ascii_code (toString_base64 buf).
Proof.
  assert (Hpad : ascii_code 61) by (unfold ascii_code; lia).
  induction n as [|n IH]; intros buf Hlen.
  - destruct buf; [constructor | cbn in Hlen; lia].
  - destruct buf as [|a [|b [|c rest]]]; cbn [toString_base64].
    + constructor.
    + repeat constructor; try apply base64_char_ascii; assumption.
    + repeat constructor; try apply base64_char_ascii; assumption.
    + repeat (constructor; [apply base64_char_ascii|]).
      apply IH. cbn [List.length] in Hlen. lia.
Qed.

(** The base64 text of a buffer is made of ASCII characters. *)
Lemma toString_base64_ascii (buf : Buffer) :
  Forall ascii_code (toString_base64 buf).
Proof. apply (toString_base64_ascii_upto (List.length buf)). lia. Qed.

Lemma needsb64_existsb (xs : list scalar) : forall acc : bool,
  fold_left (fun acc v => acc || is_binary v) xs acc
  = acc || existsb is_binary xs.
Proof.
  induction xs as [|x xs IH]; intro acc; cbn [fold_left existsb].
  - rewrite orb_false_r. reflexivity.
  - rewrite IH, orb_assoc. reflexivity.
Qed.

Lemma removeBinValues_array (key : jsstring) (xs : list scalar) :
  removeBinValues key (VArray xs)
  = if existsb is_binary xs
    then (key ++ str "-bin", VArray (map base64_of xs))
    else (key, VArray xs).
Proof.
  unfold removeBinValues. rewrite needsb64_existsb. reflexivity.
Qed.

Lemma not_binary_header (x : scalar) :
  is_binary x = false -> header_scalar x /\ x <> SString [].
Proof.
  destruct x as [s|b]; cbn [is_binary header_scalar]; [|discriminate].
  rewrite negb_false_iff. intro H. apply isAscii_test_iff in H as [Hne Hall].
  split; [assumption|]. intro E. injection E as ->. contradiction.
Qed.

(** What [removeBinValues] returns can be sent in a header. *)
Lemma removeBinValues_header_safe (key : jsstring) (value : mdvalue) :
  header_safe (snd (removeBinValues key value)).
Proof.
  destruct value as [[s|b]|xs].
  - unfold removeBinValues. destruct (isAscii_test s) eqn:E; cbn.
    + apply isAscii_test_iff in E. apply E.
    + apply toString_base64_ascii.
  - cbn. apply toString_base64_ascii.
  - rewrite removeBinValues_array.
    destruct (existsb is_binary xs) eqn:E; cbn [snd header_safe].
    + apply Forall_forall. intros y Hy.
      apply in_map_iff in Hy as [x [<- _]]. cbn.
      apply toString_base64_ascii.
    + apply Forall_forall. intros x Hx. apply not_binary_header.
      destruct (is_binary x) eqn:Ex; [|reflexivity].
      assert (existsb is_binary xs = true)
        by (apply existsb_exists; exists x; split; assumption).
      congruence.
Qed.

(** A value that can be sent as it is, is: strings of one or more ASCII
    characters, single or in an array, come back under their key. *)
Lemma removeBinValues_unchanged (key : jsstring) (value : mdvalue) :
  header_safe value -> no_empty_string value ->
  removeBinValues key value = (key, value).
Proof.
  intros Hsafe Hne. destruct value as [[s|b]|xs]; cbn in Hsafe, Hne.
  - apply removeBinValues_ascii_nonempty; [|assumption].
    intros ->. apply Hne. reflexivity.
  - contradiction.
  - rewrite removeBinValues_array.
    replace (existsb is_binary xs) with false; [reflexivity|].
    symmetry. apply not_true_is_false. intro H.
    apply existsb_exists in H as [x [Hx Hb]].
    rewrite Forall_forall in Hsafe. specialize (Hsafe x Hx).
    destruct x as [s|b]; cbn in Hsafe, Hb; [|contradiction].
    apply negb_true_iff in Hb.
    assert (isAscii_test s = true); [|congruence].
    apply isAscii_test_ascii; [|assumption].
    intros ->. apply Hne. assumption.
Qed.

(** X16.  Whatever the value, what [removeBinValues] returns can be sent
    in a header: a string of ASCII characters, or an array of such
    strings, and never a [Buffer]; the key is the one given, or that key
    followed by [-bin]. *)
Theorem removeBinValues_output (key : jsstring) (value : mdvalue) :
  header_safe (snd (removeBinValues key value))
  /\ (fst (removeBinValues key value) = key
      \/ fst (removeBinValues key value) = key ++ str "-bin").
Proof.
  split; [apply removeBinValues_header_safe|].
  destruct value as [[s|b]|xs].
  - unfold removeBinValues. destruct (isAscii_test s); cbn; auto.
  - right. reflexivity.
  - rewrite removeBinValues_array.
    destruct (existsb is_binary xs); cbn; auto.
Qed.

(** X17.  Applying [removeBinValues] again to what it returned changes
    nothing, provided no string returned is empty: the base64 text is
    ASCII, so the key gets no second [-bin]. *)
Theorem removeBinValues_twice (key : jsstring) (value : mdvalue) :
  no_empty_string (snd (removeBinValues key value)) ->
  removeBinValues (fst (removeBinValues key value))
    (snd (removeBinValues key value))
  = removeBinValues key value.
Proof.
  intro Hne.
  rewrite removeBinValues_unchanged;
    [destruct (removeBinValues key value); reflexivity
    |apply removeBinValues_header_safe | assumption].
Qed.

Lemma removeBinValues_twice_witness :
  no_empty_string
    (snd (removeBinValues (str "token") (VScalar (SBuffer [x00; x01; x02]))))
  /\ removeBinValues (str "token-bin") (VScalar (SString (str "AAEC")))
     = (str "token-bin", VScalar (SString (str "AAEC"))).
Proof.
  assert (H : no_empty_string
                (snd (removeBinValues (str "token")
                        (VScalar (SBuffer [x00; x01; x02])))))
    by (cbn; discriminate).
  split; [exact H|].
  exact (removeBinValues_twice (str "token")
           (VScalar (SBuffer [x00; x01; x02])) H).
Defined.

(** X18.  An array is encoded as a whole or not at all: if one element
    is a [Buffer] or a string that is not made of ASCII characters, every
    element, the ASCII strings too, is replaced by its base64 text, in
    the same order, under the key with [-bin]; and if no element is, the
    array comes back as it is under its key. *)
Theorem removeBinValues_array_whole (key : jsstring) (xs : list scalar) :
  ((exists x, In x xs /\ binary_scalar x) ->
   removeBinValues key (VArray xs)
   = (key ++ str "-bin", VArray (map base64_of xs)))
  /\ ((forall x, In x xs -> ~ binary_scalar x) ->
      removeBinValues key (VArray xs) = (key, VArray xs)).
Proof.
  rewrite removeBinValues_array. split.
  - intros [x [Hx Hb]].
    replace (existsb is_binary xs) with true; [reflexivity|].
    symmetry. apply existsb_exists. exists x.
    split; [assumption | apply is_binary_iff; assumption].
  - intro Hall.
    replace (existsb is_binary xs) with false; [reflexivity|].
    symmetry. apply not_true_is_false. intro H.
    apply existsb_exists in H as [x [Hx Hb]].
    apply is_binary_iff in Hb. exact (Hall x Hx Hb).
Qed.

Lemma removeBinValues_array_whole_witness :
  (exists x, In x [SString (str "a"); SBuffer [x00; x01; x02]]
             /\ binary_scalar x)
  /\ removeBinValues (str "k")
       (VArray [SString (str "a"); SBuffer [x00; x01; x02]])
     = (str "k-bin", VArray [SString (str "YQ=="); SString (str "AAEC")]).
Proof.
  assert (H : exists x, In x [SString (str "a"); SBuffer [x00; x01; x02]]
                        /\ binary_scalar x).
  { exists (SBuffer [x00; x01; x02]). split; [right; left; reflexivity|].
    exact I. }
  split; [exact H|].
  exact (proj1 (removeBinValues_array_whole (str "k")
                  [SString (str "a"); SBuffer [x00; x01; x02]]) H).
Defined.

(** ** More on the registry *)

Section RegistryLookup.
Context {Obj Handler : Type}.
Implicit Types (app : App.t Obj Handler) (svc : App.ServiceDescriptor Obj)
  (rs : list (string * App.Entry Obj Handler)) (r k : string) (h : Handler)
  (e : App.Entry Obj Handler).

Lemma find_entry_none rs r :
  App.find_entry rs r = None <-> ~ In r (map fst rs).
Proof.
  induction rs as [|[k e] rs IH]; cbn [App.find_entry map fst In].
  - tauto.
  - destruct (String.eqb_spec k r) as [->|Hne].
    + split; [discriminate | tauto].
    + rewrite IH. tauto.
Qed.

Lemma find_entry_unique rs r e :
  NoDup (map fst rs) -> In (r, e) rs -> App.find_entry rs r = Some e.
Proof.
  induction rs as [|[k e'] rs IH]; intros Hnd Hin; [contradiction|].
  cbn [map fst] in Hnd. inversion Hnd as [|k' ks Hk Hks]; subst.
  cbn [App.find_entry]. destruct Hin as [E|Hin].
  - injection E as -> ->. rewrite String.eqb_refl. reflexivity.
  - destruct (String.eqb_spec k r) as [->|Hne]; [|apply IH; assumption].
    exfalso. apply Hk. apply (in_map fst) in Hin. exact Hin.
Qed.

(** What [register] does to the entries: the first entry of the route
    gets the handler, every other lookup is as before. *)
Lemma set_handler_ok rs : forall r h rs',
  App.set_handler rs r h = Ok rs' ->
  exists e,
    App.find_entry rs r = Some e /\ App.entry_handler e = None
    /\ App.find_entry rs' r
       = Some (App.mkEntry (App.entry_marshal e) (App.entry_unmarshal e)
                 (Some h))
    /\ (forall r', r' <> r -> App.find_entry rs' r' = App.find_entry rs r').
Proof.
  induction rs as [|[k e] rs IH]; intros r h rs' H;
    cbn [App.set_handler] in H; [discriminate|].
  cbn [App.find_entry].
  destruct (String.eqb_spec k r) as [->|Hne].
  - destruct (App.entry_handler e) eqn:Eh; [discriminate|].
    injection H as <-. exists e. cbn [App.find_entry].
    rewrite String.eqb_refl. repeat split; try assumption.
    intros r' Hr'. apply not_eq_sym, String.eqb_neq in Hr'.
    rewrite Hr'. reflexivity.
  - destruct (App.set_handler rs r h) as [rest'|err] eqn:E; [|discriminate].
    cbn [bind] in H. injection H as <-.
    destruct (IH r h rest' E) as [e0 [Hf [Hh [Hf' Hother]]]].
    exists e0. cbn [App.find_entry].
    apply String.eqb_neq in Hne. rewrite Hne.
    repeat split; try assumption.
    intros r' Hr'. destruct (String.eqb k r'); [reflexivity|].
    apply Hother. assumption.
Qed.

Lemma set_handler_succeeds rs : forall r h e,
  App.find_entry rs r = Some e -> App.entry_handler e = None ->
  exists rs', App.set_handler rs r h = Ok rs'.
Proof.
  induction rs as [|[k e'] rs IH]; intros r h e Hf Hh;
    cbn [App.find_entry] in Hf; [discriminate|].
  cbn [App.set_handler]. destruct (String.eqb k r).
  - injection Hf as ->. rewrite Hh. eexists. reflexivity.
  - destruct (IH r h e Hf Hh) as [rs' ->]. eexists. reflexivity.
Qed.

Lemma set_handler_fails rs : forall r h,
  (App.find_entry rs r = None
   \/ exists e h0, App.find_entry rs r = Some e
                   /\ App.entry_handler e = Some h0) ->
  exists err, App.set_handler rs r h = Throw err.
Proof.
  induction rs as [|[k e'] rs IH]; intros r h H;
    cbn [App.set_handler]; [eexists; reflexivity|].
  cbn [App.find_entry] in H. destruct (String.eqb k r).
  - destruct H as [H | [e [h0 [Hf Hh]]]]; [discriminate|].
    injection Hf as ->. rewrite Hh. eexists. reflexivity.
  - destruct (IH r h H) as [err ->]. eexists. reflexivity.
Qed.

Lemma hasRoute_false_cases app r :
  In r (map fst (App.routes app)) -> App.hasRoute app r = false ->
  exists e, App.find_entry (App.routes app) r = Some e
            /\ App.entry_handler e = None.
Proof.
  unfold App.hasRoute. intros Hin Hh.
  destruct (App.find_entry (App.routes app) r) as [e|] eqn:E.
  - exists e. split; [reflexivity|].
    destruct (App.entry_handler e); [discriminate | reflexivity].
  - apply find_entry_none in E. contradiction.
Qed.

Lemma addService_services app svc app' :
  App.addService app svc = Ok app' ->
  App.services app' = App.services app ++ [App.service_name svc].
Proof.
  unfold App.addService.
  destruct (App.mem (App.service_name svc) (App.services app));
    [discriminate|].
  destruct (existsb _ _); [discriminate|].
  intro H. injection H as <-. reflexivity.
Qed.

Lemma addServices_state (svcs : list (App.ServiceDescriptor Obj)) :
  forall app app',
  App.addServices app svcs = Ok app' ->
  App.services app' = App.services app ++ map App.service_name svcs
  /\ App.routes app'
     = App.routes app ++ flat_map App.service_entries svcs.
Proof.
  induction svcs as [|svc svcs IH]; intros app app' H.
  - cbn in H. injection H as <-. cbn. rewrite !app_nil_r. auto.
  - cbn [App.addServices] in H.
    destruct (App.addService app svc) as [app1|err] eqn:E; [|discriminate].
    cbn [bind] in H. destruct (IH app1 app' H) as [Hs Hr].
    pose proof (addService_services _ _ _ E) as Hs1.
    apply addService_routes in E as [Hr1 _].
    rewrite Hs, Hr, Hs1, Hr1. cbn [map flat_map].
    rewrite <- !app_assoc. auto.
Qed.

Lemma registerAll_services (regs : list (string * Handler)) :
  forall app app',
  App.registerAll app regs = Ok app' ->
  App.services app' = App.services app.
Proof.
  induction regs as [|[r h] regs IH]; intros app app' H.
  - cbn in H. injection H as <-. reflexivity.
  - cbn [App.registerAll] in H. unfold App.register in H.
    destruct (App.set_handler (App.routes app) r h) as [rs'|err];
      [|discriminate].
    cbn [bind] in H. rewrite (IH _ app' H). reflexivity.
Qed.

End RegistryLookup.

(** X19.  [register] in the registry (as modelled from the
    specification): it succeeds on a known route without a handler, after
    which [hasRoute] holds for that route, every other route and every
    callback is as before, and registering the route again fails; it
    fails on an unknown route and on a route that has a handler. *)
Theorem register_behaviour (Obj Handler : Type) (app : App.t Obj Handler)
    (r : string) (h : Handler) :
  (In r (map fst (App.routes app)) -> App.hasRoute app r = false ->
   exists app',
     App.register app r h = Ok app'
     /\ App.hasRoute app' r = true
     /\ App.marshaller app' r = App.marshaller app r
     /\ App.unmarshaller app' r = App.unmarshaller app r
     /\ (forall r', r' <> r ->
           App.hasRoute app' r' = App.hasRoute app r'
           /\ App.marshaller app' r' = App.marshaller app r'
           /\ App.unmarshaller app' r' = App.unmarshaller app r')
     /\ (forall h', exists err, App.register app' r h' = Throw err))
  /\ (~ In r (map fst (App.routes app)) ->
      exists err, App.register app r h = Throw err)
  /\ (App.hasRoute app r = true ->
      exists err, App.register app r h = Throw err).
Proof.
  split; [|split].
  - intros Hin Hno.
    destruct (hasRoute_false_cases app r Hin Hno) as [e [Hf Hh]].
    destruct (set_handler_succeeds (App.routes app) r h e Hf Hh)
      as [rs' Hset].
    destruct (set_handler_ok _ _ _ _ Hset) as [e0 [Hf0 [_ [Hf' Hother]]]].
    rewrite Hf in Hf0. injection Hf0 as <-.
    exists (App.mkApp (App.services app) rs').
    unfold App.register. rewrite Hset. cbn [bind].
    unfold App.hasRoute, App.marshaller, App.unmarshaller.
    cbn [App.routes]. rewrite Hf', Hf.
    cbn [App.entry_handler App.entry_marshal App.entry_unmarshal].
    repeat split; try (rewrite (Hother r') by assumption; reflexivity).
    intro h'.
    destruct (set_handler_fails rs' r h') as [err Herr].
    { right. eexists. exists h. split; [exact Hf' | reflexivity]. }
    exists err. rewrite Herr. reflexivity.
  - intro Hnot. apply find_entry_none in Hnot.
    destruct (set_handler_fails (App.routes app) r h (or_introl Hnot))
      as [err Herr].
    exists err. unfold App.register. rewrite Herr. reflexivity.
  - intro Hhas. unfold App.hasRoute in Hhas.
    destruct (App.find_entry (App.routes app) r) as [e|] eqn:Hf;
      [|discriminate].
    destruct (App.entry_handler e) as [h0|] eqn:Hh; [|discriminate].
    destruct (set_handler_fails (App.routes app) r h) as [err Herr].
    { right. exists e, h0. split; assumption. }
    exists err. unfold App.register. rewrite Herr. reflexivity.
Qed.

Lemma register_behaviour_witness :
  exists app0 app1 : App.t unit unit,
    App.RpcApp [App.testSvc (fun _ => Ok []) (fun b => Ok (VBuffer b));
                App.basicSvc] = Ok app0
    /\ App.register app0 "/basic/noop" tt = Ok app1
    /\ exists err, App.register app1 "/basic/noop" tt = Throw err.
Proof.
  do 2 eexists. split; [reflexivity|]. split; [reflexivity|].
  apply (proj2 (proj2 (register_behaviour unit unit _ "/basic/noop" tt))).
  reflexivity.
Defined.

(** X20.  Lookup in the registry (as modelled from the specification):
    once services built by [Service] are added to a new registry, the
    route of each of their methods gives back the callbacks the method
    declared and has no handler yet, and a route that no service
    declares gives no callback and no handler. *)
Theorem registry_lookup (Obj Handler : Type)
    (svcs : list (App.ServiceDescriptor Obj)) (app : App.t Obj Handler) :
  Forall (fun svc =>
            App.Service (App.service_name svc) (App.service_methods svc)
            = Ok svc) svcs ->
  App.RpcApp svcs = Ok app ->
  (forall svc m,
      In svc svcs -> In m (App.service_methods svc) ->
      App.marshaller app (App.route (App.service_name svc)
                            (App.method_name m))
      = App.method_marshal m
      /\ App.unmarshaller app (App.route (App.service_name svc)
                                 (App.method_name m))
         = App.method_unmarshal m
      /\ App.hasRoute app (App.route (App.service_name svc)
                             (App.method_name m)) = false)
  /\ (forall r,
        ~ In r (App.declared_routes (Handler:=Handler) svcs) ->
        App.marshaller app r = None /\ App.unmarshaller app r = None
        /\ App.hasRoute app r = false).
Proof.
  intros Hvalid Hadd.
  destruct (addServices_routes svcs App.empty app Hvalid Hadd)
    as [Hkeys [Hnd _]]; [constructor | constructor |].
  destruct (addServices_state svcs App.empty app Hadd) as [_ Hroutes].
  cbn [App.routes App.empty Datatypes.app map] in Hkeys, Hroutes.
  split.
  - intros svc m Hsvc Hm.
    assert (Hin : In (App.route (App.service_name svc) (App.method_name m),
                      App.mkEntry (App.method_marshal m)
                        (App.method_unmarshal m) None)
                     (App.routes app)).
    { rewrite Hroutes. apply in_flat_map. exists svc. split; [assumption|].
      unfold App.service_entries. apply in_map_iff. exists m.
      split; [reflexivity | assumption]. }
    pose proof (find_entry_unique _ _ _ Hnd Hin) as Hf.
    unfold App.marshaller, App.unmarshaller, App.hasRoute.
    rewrite Hf. repeat split.
  - intros r Hnot. rewrite <- Hkeys in Hnot.
    apply find_entry_none in Hnot.
    unfold App.marshaller, App.unmarshaller, App.hasRoute.
    rewrite Hnot. repeat split.
Qed.

Lemma registry_lookup_witness :
  exists app : App.t unit unit,
    App.RpcApp [App.testSvc (fun _ => Ok []) (fun b => Ok (VBuffer b));
                App.basicSvc] = Ok app
    /\ App.marshaller app "this-does-no-exist" = None
    /\ App.unmarshaller app "this-does-no-exist" = None
    /\ App.hasRoute app "this-does-no-exist" = false.
Proof.
  eexists. split; [reflexivity|].
  apply (proj2 (registry_lookup unit unit
                  [App.testSvc (fun _ => Ok []) (fun b => Ok (VBuffer b));
                   App.basicSvc] _
                  ltac:(repeat constructor) eq_refl)).
  cbn. intuition discriminate.
Defined.

(** X21.  A service cannot be added twice to the registry (as modelled
    from the specification): once a registry is built from services, and
    whatever handlers are registered afterwards, adding any of those
    services again fails. *)
Theorem addService_again (Obj Handler : Type)
    (svcs : list (App.ServiceDescriptor Obj))
    (regs : list (string * Handler)) (app app' : App.t Obj Handler)
    (svc : App.ServiceDescriptor Obj) :
  App.RpcApp svcs = Ok app ->
  App.registerAll app regs = Ok app' ->
  In svc svcs ->
  exists err, App.addService app' svc = Throw err.
Proof.
  intros Hadd Hreg Hin.
  destruct (addServices_state svcs App.empty app Hadd) as [Hs _].
  cbn [App.services App.empty Datatypes.app] in Hs.
  rewrite <- (registerAll_services regs app app' Hreg) in Hs.
  unfold App.addService.
  assert (Hmem : App.mem (App.service_name svc) (App.services app') = true).
  { apply mem_In. rewrite Hs. apply in_map. assumption. }
  rewrite Hmem. eexists. reflexivity.
Qed.

Lemma addService_again_witness :
  exists (app : App.t unit unit) (err : JsError),
    App.RpcApp [App.testSvc (fun _ => Ok []) (fun b => Ok (VBuffer b));
                App.basicSvc] = Ok app
    /\ App.addService app
         (App.testSvc (fun _ => Ok []) (fun b => Ok (VBuffer b)))
       = Throw err.
Proof.
  eexists.
  destruct (addService_again unit unit
              [App.testSvc (fun _ => Ok []) (fun b => Ok (VBuffer b));
               App.basicSvc] [] _ _
              (App.testSvc (fun _ => Ok []) (fun b => Ok (VBuffer b)))
              eq_refl eq_refl (or_introl eq_refl)) as [err Herr].
  exists err. split; [reflexivity | exact Herr].
Defined.
